(** * TypeScript interface generation from Swagger model definitions

    A shallow embedding of [api-specs/generate-types.py]: the type mapper
    [swagger_type_to_typescript], the declaration builder
    [generate_interface] and the root loop of [main], followed by the
    properties of the generated output.

    Modelling conventions.
    - A Python [str] is a [string]; comparison is by character code, which on
      UTF-8 text is the code point order Python uses.
    - A JSON object read with [.get(key)] is a record of [option] fields
      ([None]: key absent); [.get(key, default)] is [default] on the field.
    - The [definitions] dict is only ever indexed, so it is a [gmap]; the
      [properties] dict is iterated in insertion order, so it is an
      association list (a dict has no two equal keys: [NoDup] on the keys
      where a statement needs it); [processed] is a [gset].
    - [generate_interface] mutates [processed]: the set is threaded through
      and returned next to the lines.  Python recursion becomes recursion on
      a fuel counter; running out of fuel is [None].  The interpreter's own
      limit on the depth of the call stack is not part of the model. *)

From Stdlib Require Import Ascii.
From stdpp Require Import base option list sorting strings gmap.

#[local] Set Warnings "-clear-no-such-hyp".

(** ** Strings *)

Module Str.

Definition dquote : string := String "034"%char "".
Definition lf : ascii := "010"%char.
Definition cr : ascii := "013"%char.

(** [s.split(sep)] for a one-character separator: never empty. *)
Fixpoint split (sep : ascii) (s : string) : list string :=
  match s with
  | "" => [""]
  | String c s' =>
      if decide (c = sep) then "" :: split sep s'
      else match split sep s' with
           | w :: ws => String c w :: ws
           | [] => [String c ""]
           end
  end.

(** [s.split('.')[-1]] *)
Definition last_segment (s : string) : string :=
  List.last (split "."%char s) "".

(** [sep.join(l)] *)
Definition join (sep : string) (l : list string) : string :=
  String.concat sep l.

(** [s.replace('\r\n', ' ')] *)
Fixpoint replace_crlf (s : string) : string :=
  match s with
  | "" => ""
  | String c s' =>
      match s' with
      | String c' s'' =>
          if decide (c = cr ∧ c' = lf) then String " "%char (replace_crlf s'')
          else String c (replace_crlf s')
      | "" => String c ""
      end
  end.

(** [s.replace('\n', ' ')] *)
Fixpoint replace_lf (s : string) : string :=
  match s with
  | "" => ""
  | String c s' =>
      String (if decide (c = lf) then " "%char else c) (replace_lf s')
  end.

(** The characters [str.isspace] accepts below code 128: tab to carriage
    return, the four separators, and the space.  The blanks of higher code
    that [str.strip] removes as well are not modelled: [strip] below is
    that of Python on text of characters below code 128. *)
Definition is_space (c : ascii) : bool :=
  let n := nat_of_ascii c in
  bool_decide (9 ≤ n ≤ 13 ∨ 28 ≤ n ≤ 32).

Fixpoint lstrip (s : string) : string :=
  match s with
  | "" => ""
  | String c s' => if is_space c then lstrip s' else s
  end.

Fixpoint rstrip (s : string) : string :=
  match s with
  | "" => ""
  | String c s' =>
      match rstrip s' with
      | "" => if is_space c then "" else String c ""
      | r => String c r
      end
  end.

(** [s.strip()] *)
Definition strip (s : string) : string := rstrip (lstrip s).

(** Truthiness of a Python string that may be [None]. *)
Definition truthy (o : option string) : option string :=
  match o with
  | Some "" => None
  | _ => o
  end.

End Str.

(** ** Data model *)

(** One entry of a [properties] dict ([prop_details]). *)
#[local] Set Warnings "-register-all".
Inductive FieldDescriptor : Type :=
  MkField {
    fd_type : option string;
    fd_format : option string;
    fd_ref : option string;
    fd_items : option FieldDescriptor;
    fd_enum : option (list string);
    fd_description : option string
  }.

(** One entry of the [definitions] dict ([model_def]). *)
Record SchemaNode : Type :=
  MkNode {
    properties : list (string * FieldDescriptor);
    required : list string;
    description : option string
  }.

(** The empty dict [{}]. *)
Definition empty_dict : FieldDescriptor := MkField None None None None None None.

(** [bool(d)] for a dict [d]: some key is present. *)
Definition dict_truthy (d : FieldDescriptor) : bool :=
  match d with
  | MkField None None None None None None => false
  | _ => true
  end.

(** ** Type mapper *)

(** The literal dict [type_map]. *)
Definition type_map : list (string * string) :=
  [ ("integer", "number");
    ("number", "number");
    ("string", "string");
    ("boolean", "boolean");
    ("object", "Record<string, unknown>") ].

(** [d.get(key, dflt)] on a literal dict; a [None] key is in no dict here. *)
Definition dict_get (d : list (string * string)) (key : option string)
    (dflt : string) : string :=
  match key with
  | Some k => default dflt (snd <$> List.find (λ kv, bool_decide (kv.1 = k)) d)
  | None => dflt
  end.

(** The f-string of the enum branch: the value between double quotes. *)
Definition quoted (e : string) : string := Str.dquote +:+ e +:+ Str.dquote.

(** The body of [swagger_type_to_typescript], with its one self-call (on the
    item type of an array) taken as the parameter [self].  That call leaves
    [prop_ref], [prop_items] and [enum] at their default [None]. *)
Definition swagger_body (self : option string → option string → string)
    (prop_type prop_format prop_ref : option string)
    (prop_items : option FieldDescriptor) (enum : option (list string)) : string :=
  match Str.truthy prop_ref with
  | Some ref => Str.last_segment ref
  | None =>
    match enum with
    | Some (e :: es) => Str.join " | " (quoted <$> e :: es)
    | _ =>
      if bool_decide (prop_type = Some "array") then
        match prop_items with
        | Some items =>
            if dict_truthy items then
              match Str.truthy (fd_ref items) with
              | Some item_ref => Str.last_segment item_ref +:+ "[]"
              | None =>
                  let item_type := default "unknown" (fd_type items) in
                  self (Some item_type) (fd_format items) +:+ "[]"
              end
            else "unknown[]"
        | None => "unknown[]"
        end
      else
        let base_type := dict_get type_map prop_type "unknown" in
        if bool_decide (prop_format = Some "date-time")
           && bool_decide (base_type = "string")
        then "string"
        else base_type
    end
  end.

(** The self-call: without items the body never calls itself again. *)
Definition swagger_type_of_item (prop_type prop_format : option string) : string :=
  swagger_body (λ _ _, "unknown") prop_type prop_format None None None.

Definition swagger_type_to_typescript
    (prop_type prop_format prop_ref : option string)
    (prop_items : option FieldDescriptor) (enum : option (list string)) : string :=
  swagger_body swagger_type_of_item prop_type prop_format prop_ref prop_items enum.

(** The mapper applied to the keys of one [prop_details], as
    [generate_interface] calls it. *)
Definition ts_type_of (d : FieldDescriptor) : string :=
  swagger_type_to_typescript
    (fd_type d) (fd_format d) (fd_ref d) (fd_items d) (fd_enum d).

(** ** Declaration builder *)

(** [sorted(properties.items())]: the keys of a dict are distinct, so the
    order of the pairs is the order of their names. *)
Definition name_le (p q : string * FieldDescriptor) : Prop := String.le p.1 q.1.

#[global] Instance name_le_dec : RelDecision name_le.
Proof. intros p q. unfold name_le. apply _. Defined.

Definition sorted_items (props : list (string * FieldDescriptor)) :
    list (string * FieldDescriptor) :=
  merge_sort name_le props.

(** The cleaned description of a field comment. *)
Definition clean_desc (prop_desc : string) : string :=
  Str.strip (Str.replace_lf (Str.replace_crlf prop_desc)).

Definition optional_marker (required_fields : list string) (prop_name : string) : string :=
  let is_required := bool_decide (prop_name ∈ required_fields) in
  if is_required then "" else "?".

(** One round of the loop over the sorted properties: the lines it appends. *)
Definition field_lines (required_fields : list string)
    (prop : string * FieldDescriptor) : list string :=
  let '(prop_name, prop_details) := prop in
  let prop_desc := default "" (fd_description prop_details) in
  let ts_type := ts_type_of prop_details in
  (if bool_decide (prop_desc ≠ "")
   then ["  /** " +:+ clean_desc prop_desc +:+ " */"] else [])
  ++ ["  " +:+ prop_name +:+ optional_marker required_fields prop_name
        +:+ ": " +:+ ts_type +:+ ";"].

(** The lines [generate_interface] appends for the model itself, after those
    of its dependencies. *)
Definition interface_block (short_name : string) (model_def : SchemaNode) : list string :=
  let description := default "" (description model_def) in
  (if bool_decide (description ≠ "")
   then ["/**"; " * " +:+ description; " */"] else [])
  ++ ["export interface " +:+ short_name +:+ " {"]
  ++ (sorted_items (properties model_def) ≫= field_lines (required model_def))
  ++ ["}"; ""].

(** The second name the dependency loop looks up for a property: when its
    type is [array], the [$ref] of [prop_details.get('items', {})]. *)
Definition item_ref (prop_details : FieldDescriptor) : option string :=
  if bool_decide (fd_type prop_details = Some "array")
  then fd_ref (default empty_dict (fd_items prop_details))
  else None.

Section builder.
Context {A : Type}.
(** What a call on a dependency does: the lines (here of any type [A]) and
    the set [processed] after it, or [None] out of fuel. *)
Context (rec : string → SchemaNode → gset string → option (list A * gset string)).
Context (all_definitions : gmap string SchemaNode).

(** [if ref and ref in all_definitions: lines.extend(generate_interface(...))] *)
Definition extend_with_dependency (ref : option string)
    (lines : list A) (processed : gset string) : option (list A * gset string) :=
  match Str.truthy ref with
  | Some name =>
      match all_definitions !! name with
      | Some model_def =>
          '(dep_lines, processed') ← rec name model_def processed;
          Some (lines ++ dep_lines, processed')
      | None => Some (lines, processed)
      end
  | None => Some (lines, processed)
  end.

(** The loop over [properties.items()], in the order of the dict. *)
Fixpoint dependencies_loop (props : list (string * FieldDescriptor))
    (lines : list A) (processed : gset string) : option (list A * gset string) :=
  match props with
  | [] => Some (lines, processed)
  | (_, prop_details) :: rest =>
      '(lines1, processed1) ←
        extend_with_dependency (fd_ref prop_details) lines processed;
      '(lines2, processed2) ←
        extend_with_dependency (item_ref prop_details) lines1 processed1;
      dependencies_loop rest lines2 processed2
  end.
End builder.

Fixpoint generate_interface (fuel : nat) (model_name : string) (model_def : SchemaNode)
    (all_definitions : gmap string SchemaNode) (processed : gset string) :
    option (list string * gset string) :=
  match fuel with
  | 0 => None
  | S fuel =>
      if decide (model_name ∈ processed) then Some ([], processed)
      else
        let processed := {[model_name]} ∪ processed in
        let short_name := Str.last_segment model_name in
        match properties model_def with
        | [] => Some ([], processed)
        | _ =>
            '(lines, processed) ←
              dependencies_loop
                (λ n d p, generate_interface fuel n d all_definitions p)
                all_definitions (properties model_def) [] processed;
            Some (lines ++ interface_block short_name model_def, processed)
        end
  end.

(** The same traversal, recording instead of the lines of each interface
    the model it is generated for: the order of the declarations in the
    output.  [generate_interface_declared] below shows that the lines of
    [generate_interface] are the blocks of these declarations. *)
Fixpoint declared (fuel : nat) (model_name : string) (model_def : SchemaNode)
    (all_definitions : gmap string SchemaNode) (processed : gset string) :
    option (list (string * SchemaNode) * gset string) :=
  match fuel with
  | 0 => None
  | S fuel =>
      if decide (model_name ∈ processed) then Some ([], processed)
      else
        let processed := {[model_name]} ∪ processed in
        match properties model_def with
        | [] => Some ([], processed)
        | _ =>
            '(decls, processed) ←
              dependencies_loop
                (λ n d p, declared fuel n d all_definitions p)
                all_definitions (properties model_def) [] processed;
            Some (decls ++ [(model_name, model_def)], processed)
        end
  end.

(** The lines of one recorded declaration. *)
Definition block_of (decl : string * SchemaNode) : list string :=
  interface_block (Str.last_segment decl.1) decl.2.

(** ** The run of [main] *)

Definition models_to_generate : list string :=
  [ "Mindbody.PublicApi.Dto.Models.V6.Appointment";
    "Mindbody.PublicApi.Common.Models.Appointment";
    "Mindbody.PublicApi.Common.Models.AppointmentStaff";
    "Mindbody.PublicApi.Dto.Models.V6.AddOnSmall";
    "Mindbody.PublicApi.Dto.Models.V6.ResourceSlim";
    "Mindbody.PublicApi.Dto.Models.V6.AppointmentController.GetStaffAppointmentsResponse";
    "Mindbody.PublicApi.Dto.Models.V6.PaginationResponse";
    "Mindbody.PublicApi.Dto.Models.V6.AppointmentController.AddAppointmentRequest";
    "Mindbody.PublicApi.Dto.Models.V6.AppointmentController.UpdateAppointmentRequest";
    "Mindbody.PublicApi.Dto.Models.V6.AppointmentController.GetBookableItemsResponse";
    "Mindbody.PublicApi.Dto.Models.V6.BookableItem";
    "Mindbody.PublicApi.Dto.Models.V6.Location";
    "Mindbody.PublicApi.Dto.Models.V6.SessionType";
    "Mindbody.PublicApi.Dto.Models.V6.Staff";
    "Mindbody.PublicApi.Dto.Models.V6.Program";
    "Mindbody.PublicApi.Dto.Models.V6.Client" ].

Definition banner : string :=
  "// ============================================================================".

(** The initial value of [output_lines]. *)
Definition file_header : list string :=
  [ "/**";
    " * MinBody Public API v6 TypeScript Type Definitions";
    " * ";
    " * Auto-generated from official OpenAPI specification";
    " * Source: https://api.mindbodyonline.com/public/v6/swagger/doc";
    " * Generated: 2025-11-24";
    " * ";
    " * DO NOT EDIT MANUALLY - Regenerate from spec using generate-types.py";
    " */";
    "";
    banner;
    "// Core Appointment Types";
    banner;
    "" ].

(** The utility types appended after the loop. *)
Definition utility_types : list string :=
  [ "";
    banner;
    "// Utility Types";
    banner;
    "";
    "/**";
    " * Generic paginated response wrapper";
    " */";
    "export interface PaginatedResponse<T> {";
    "  /** Array of results */";
    "  Items?: T[];";
    "  /** Pagination metadata */";
    "  PaginationResponse?: PaginationResponse;";
    "}";
    "";
    "/**";
    " * Appointment response (uses " +:+ Str.dquote +:+ "Appointments"
      +:+ Str.dquote +:+ " key)";
    " */";
    "export interface AppointmentResponse {";
    "  Appointments?: Appointment[];";
    "  PaginationResponse?: PaginationResponse;";
    "}";
    "" ].

(** The loop of [main] over the requested models: one shared [processed]. *)
Fixpoint models_loop {A : Type}
    (rec : string → SchemaNode → gset string → option (list A * gset string))
    (definitions : gmap string SchemaNode) (models : list string)
    (output_lines : list A) (processed : gset string) :
    option (list A * gset string) :=
  match models with
  | [] => Some (output_lines, processed)
  | model_name :: rest =>
      match definitions !! model_name with
      | Some model_def =>
          '(interface_lines, processed') ← rec model_name model_def processed;
          models_loop rec definitions rest (output_lines ++ interface_lines) processed'
      | None => models_loop rec definitions rest output_lines processed
      end
  end.

(** Fuel no run can exhaust: each nested call marks one more definition. *)
Definition depth_bound (definitions : gmap string SchemaNode) : nat :=
  S (size definitions).

(** [main] from the loaded [definitions] to the lines written and the final
    [processed], for any list of requested models. *)
Definition main_for (models : list string) (definitions : gmap string SchemaNode) :
    option (list string * gset string) :=
  '(output_lines, processed) ←
    models_loop
      (λ n d p, generate_interface (depth_bound definitions) n d definitions p)
      definitions models file_header ∅;
  Some (output_lines ++ utility_types, processed).

Definition main (definitions : gmap string SchemaNode) :
    option (list string * gset string) :=
  main_for models_to_generate definitions.

(** The declarations of a run, in output order. *)
Definition main_declared (models : list string) (definitions : gmap string SchemaNode) :
    option (list (string * SchemaNode) * gset string) :=
  models_loop
    (λ n d p, declared (depth_bound definitions) n d definitions p)
    definitions models [] ∅.

(** ** The reference graph of a definition table *)

(** The names the dependency loop follows from one property. *)
Definition field_refs (prop_details : FieldDescriptor) : list string :=
  option_list (Str.truthy (fd_ref prop_details))
  ++ option_list (Str.truthy (item_ref prop_details)).

(** [model_def] references [target]: directly, or through the items of an
    array. *)
Definition references (model_def : SchemaNode) (target : string) : Prop :=
  ∃ prop, prop ∈ properties model_def ∧ target ∈ field_refs prop.2.

(** An edge of the graph: both ends are definitions of the table. *)
Definition edge (definitions : gmap string SchemaNode) (D E : string) : Prop :=
  ∃ model_def, definitions !! D = Some model_def ∧ references model_def E
               ∧ E ∈ dom definitions.

Definition reaches (definitions : gmap string SchemaNode) : relation string :=
  rtc (edge definitions).

(** [E] stands before [D] in a list of names. *)
Definition precedes (names : list string) (E D : string) : Prop :=
  ∃ l1 l2 l3, names = l1 ++ E :: l2 ++ D :: l3.

(** The type mapper as the specification words it, for comparison with
    [swagger_type_to_typescript]: the same priorities, and for an array the
    mapper itself applied to the whole item descriptor. *)
Fixpoint type_expression_by_spec (d : FieldDescriptor) : string :=
  match d with
  | MkField kind format ref items enum _ =>
    match Str.truthy ref with
    | Some name => Str.last_segment name
    | None =>
      match enum with
      | Some (e :: es) => Str.join " | " (quoted <$> e :: es)
      | _ =>
        if bool_decide (kind = Some "array") then
          match items with
          | Some item => type_expression_by_spec item +:+ "[]"
          | None => "unknown[]"
          end
        else dict_get type_map kind "unknown"
      end
    end
  end.

(** ** What a stretch of the traversal guarantees *)

(** A stretch of the traversal of the table [G] starts with
    [processed = p], ends with [processed = p'] and declares [t], in this
    order. *)
Record stretch (G : gmap string SchemaNode) (p : gset string)
    (t : list (string * SchemaNode)) (p' : gset string) : Prop := {
  st_mono : p ⊆ p';
  st_new : ∀ x, x ∈ t.*1 → x ∈ p' ∧ x ∉ p;
  st_nodup : NoDup t.*1;
  st_table : ∀ x d, (x, d) ∈ t → G !! x = Some d ∧ properties d ≠ [];
  st_dom : ∀ x, x ∈ p' → x ∉ p → x ∈ dom G;
  st_declared :
    ∀ x d, x ∈ p' → x ∉ p → G !! x = Some d → properties d ≠ [] → x ∈ t.*1;
  st_closed : ∀ x E, x ∈ p' → x ∉ p → edge G x E → E ∈ p';
  st_order :
    ∀ D E, D ∈ t.*1 → edge G D E → ¬ reaches G E D →
           E ∈ p ∨ precedes t.*1 E D ∨ E ∉ t.*1
}.

(** A call on [n] is a stretch that marks [n] and marks nothing that [n]
    does not reach. *)
Definition visit (G : gmap string SchemaNode) (n : string) (p : gset string)
    (t : list (string * SchemaNode)) (p' : gset string) : Prop :=
  stretch G p t p' ∧ n ∈ p' ∧ ∀ x, x ∈ p' → x ∉ p → reaches G n x.

(** The definitions not yet marked: what bounds the depth of the calls. *)
Definition unmarked (G : gmap string SchemaNode) (p : gset string) : nat :=
  size (dom G ∖ p).

(** The lines of a list of declarations, next to the set [processed]. *)
Definition render (r : list (string * SchemaNode) * gset string) :
    list string * gset string :=
  (r.1 ≫= block_of, r.2).

(** The file [main] writes, from the declarations of the run. *)
Definition file_of (decls : list (string * SchemaNode)) : list string :=
  file_header ++ (decls ≫= block_of) ++ utility_types.

(** The first line of a declaration, and the lines that begin like one. *)
Definition header_of (decl : string * SchemaNode) : string :=
  "export interface " +:+ Str.last_segment decl.1 +:+ " {".

Definition is_header (line : string) : Prop :=
  String.prefix "export interface " line = true.

#[global] Instance is_header_dec line : Decision (is_header line).
Proof. unfold is_header. apply _. Defined.

(** How many declarations of a run are for the definition [x]. *)
Definition occurrences (x : string) (decls : list (string * SchemaNode)) : nat :=
  length (filter (λ y, y = x) decls.*1).

(** [A] and [B] are definitions that each reference the other. *)
Definition mutually_referencing (definitions : gmap string SchemaNode)
    (A B : string) : Prop :=
  ∃ dA dB, definitions !! A = Some dA ∧ definitions !! B = Some dB
           ∧ references dA B ∧ references dB A.

(** ** Sample descriptors and tables *)

Module Sample.

Definition primitive (kind : string) : FieldDescriptor :=
  MkField (Some kind) None None None None None.

Definition reference (name : string) : FieldDescriptor :=
  MkField None None (Some name) None None None.

Definition array_of (items : FieldDescriptor) : FieldDescriptor :=
  MkField (Some "array") None None (Some items) None None.

(** Two definitions that reference each other. *)
Definition ping : SchemaNode := MkNode [("pong", reference "Demo.Pong")] [] None.
Definition pong : SchemaNode := MkNode [("ping", reference "Demo.Ping")] [] None.

Definition cyclic : gmap string SchemaNode :=
  <["Demo.Ping" := ping]> (<["Demo.Pong" := pong]> ∅).

(** The end-to-end table of the specification: [Appointment] references
    [Client]. *)
Definition client : SchemaNode :=
  MkNode [("Name", primitive "string"); ("Id", primitive "integer")] ["Id"] None.

Definition appointment : SchemaNode :=
  MkNode [("Id", primitive "integer"); ("Client", reference "Api.Client")]
    ["Id"] None.

Definition booking : gmap string SchemaNode :=
  <["Api.Client" := client]> (<["Api.Appointment" := appointment]> ∅).





(** A descriptor carrying every marker at once. *)
Definition crowded : FieldDescriptor :=
  MkField (Some "array") (Some "date-time") (Some "Api.Models.Client")
    (Some (primitive "integer")) (Some ["A"; "B"]) None.

(** A description over two lines, with blanks around it. *)
Definition two_lines : string := " first" +:+ String Str.lf "second ".

Definition documented : SchemaNode :=
  MkNode [("Id", MkField (Some "integer") None None None None (Some two_lines))]
    [] (Some two_lines).

End Sample.

(** * Properties *)

(** ** The model on the cases the specification lists *)

Example type_mapping_cases :
  ts_type_of (Sample.primitive "integer") = "number"
  ∧ ts_type_of (MkField (Some "string") (Some "date-time") None None None None)
    = "string"
  ∧ ts_type_of (Sample.array_of (Sample.reference "Api.Models.Foo")) = "Foo[]"
  ∧ ts_type_of (MkField None None None None (Some ["A"; "B"]) None)
    = quoted "A" +:+ " | " +:+ quoted "B"
  ∧ ts_type_of (Sample.primitive "widget") = "unknown"
  ∧ ts_type_of (Sample.primitive "object") = "Record<string, unknown>".
Proof. by vm_compute. Qed.

Example booking_run :
  fst <$> main_for ["Api.Appointment"; "Api.Client"] Sample.booking
  = Some (file_header
          ++ [ "export interface Client {";
               "  Id: number;";
               "  Name?: string;";
               "}";
               "";
               "export interface Appointment {";
               "  Client?: Client;";
               "  Id: number;";
               "}";
               "" ]
          ++ utility_types).
Proof. by vm_compute. Qed.

Example cleaning_cases :
  clean_desc (" a" +:+ String Str.cr (String Str.lf "b ")) = "a b"
  ∧ Str.last_segment "Mindbody.PublicApi.Dto.Models.V6.Client" = "Client"
  ∧ Str.last_segment "Client" = "Client"
  ∧ Str.split "."%char "a.b." = ["a"; "b"; ""].
Proof. by vm_compute. Qed.

(** ** Order in a list of names *)

Ltac reassoc := repeat (rewrite <-app_assoc || rewrite <-app_comm_cons); try done.

Lemma precedes_app_l l1 l2 E D : precedes l1 E D → precedes (l1 ++ l2) E D.
Proof.
  intros (a & b & c & ->). exists a, b, (c ++ l2).
  reassoc.
Qed.

Lemma precedes_app_r l1 l2 E D : precedes l2 E D → precedes (l1 ++ l2) E D.
Proof.
  intros (a & b & c & ->). exists (l1 ++ a), b, c. reassoc.
Qed.

Lemma precedes_app_lr l1 l2 E D : E ∈ l1 → D ∈ l2 → precedes (l1 ++ l2) E D.
Proof.
  intros (a & b & ->)%list_elem_of_split (c & d & ->)%list_elem_of_split.
  exists a, (b ++ c), d. reassoc.
Qed.

Lemma precedes_elem_of names E D : precedes names E D → E ∈ names ∧ D ∈ names.
Proof. intros (a & b & c & ->). set_solver. Qed.

(** In a list without repetition the order is strict. *)
Lemma precedes_asym names E D :
  NoDup names → precedes names E D → ¬ precedes names D E.
Proof.
  intros Hnd (a & b & c & ->) (a' & b' & c' & Heq).
  assert (HE : (a ++ E :: b ++ D :: c) !! length a = Some E).
  { by rewrite list_lookup_middle. }
  assert (HD : (a ++ E :: b ++ D :: c) !! (length a + S (length b)) = Some D).
  { rewrite lookup_app_r by lia. replace (length a + S (length b) - length a)
      with (S (length b)) by lia. simpl. by rewrite list_lookup_middle. }
  assert (HD' : (a ++ E :: b ++ D :: c) !! length a' = Some D).
  { rewrite Heq. by rewrite list_lookup_middle. }
  assert (HE' : (a ++ E :: b ++ D :: c) !! (length a' + S (length b')) = Some E).
  { rewrite Heq, lookup_app_r by lia. replace (length a' + S (length b') - length a')
      with (S (length b')) by lia. simpl. by rewrite list_lookup_middle. }
  pose proof (NoDup_lookup _ _ _ _ Hnd HE HE').
  pose proof (NoDup_lookup _ _ _ _ Hnd HD HD'). lia.
Qed.

Lemma elem_of_option_list {A} (o : option A) (x : A) :
  x ∈ option_list o ↔ o = Some x.
Proof.
  destruct o; simpl; [rewrite list_elem_of_singleton|rewrite elem_of_nil];
    naive_solver.
Qed.

(** ** Stretches compose *)

Section traversal.
Context (G : gmap string SchemaNode).
Implicit Types (p : gset string) (t : list (string * SchemaNode)).

Lemma stretch_refl p : stretch G p [] p.
Proof. split; try set_solver. constructor. Qed.

Lemma stretch_app p t1 p1 t2 p2 :
  stretch G p t1 p1 → stretch G p1 t2 p2 → stretch G p (t1 ++ t2) p2.
Proof.
  intros [M1 N1 U1 T1 O1 D1 C1 R1] [M2 N2 U2 T2 O2 D2 C2 R2].
  split.
  - set_solver.
  - intros x. rewrite fmap_app, elem_of_app. intros [Hx|Hx].
    + destruct (N1 x Hx). set_solver.
    + destruct (N2 x Hx). set_solver.
  - rewrite fmap_app. apply NoDup_app. split_and!; [done| |done].
    intros x Hx1 Hx2. destruct (N1 x Hx1), (N2 x Hx2). done.
  - intros x d [?|?]%elem_of_app; eauto.
  - intros x Hx Hnx. destruct (decide (x ∈ p1)); eauto.
  - intros x d Hx Hnx Hd Hprops. rewrite fmap_app, elem_of_app.
    destruct (decide (x ∈ p1)); eauto.
  - intros x E Hx Hnx Hedge. destruct (decide (x ∈ p1)); [|by eauto].
    apply M2. eauto.
  - intros D E HD Hedge Hcyc. rewrite fmap_app in *.
    apply elem_of_app in HD as [HD|HD].
    + destruct (R1 D E HD Hedge Hcyc) as [?|[?|HE]]; [by left| |].
      { right; left. by apply precedes_app_l. }
      right; right. destruct (N1 D HD) as [HDp1 HDp].
      pose proof (C1 D E HDp1 HDp Hedge) as HEp1.
      rewrite elem_of_app. intros [?|HE2]; [done|].
      by destruct (N2 E HE2).
    + destruct (R2 D E HD Hedge Hcyc) as [HEp1|[?|HE]].
      * destruct (decide (E ∈ p)); [by left|]. right.
        destruct (decide (E ∈ t1.*1)).
        { left. by apply precedes_app_lr. }
        right. rewrite elem_of_app. intros [?|HE2]; [done|].
        by destruct (N2 E HE2).
      * right; left. by apply precedes_app_r.
      * right. destruct (decide (E ∈ t1.*1)).
        { left. by apply precedes_app_lr. }
        right. rewrite elem_of_app. by intros [?|?].
Qed.

(** The body of a call around the stretch of its dependency loop. *)
Lemma stretch_wrap n d p t0 p1 :
  G !! n = Some d → n ∉ p → properties d ≠ [] →
  stretch G ({[n]} ∪ p) t0 p1 →
  (∀ E, edge G n E → E ∈ p1) →
  (∀ x, x ∈ p1 → x ∉ {[n]} ∪ p → reaches G n x) →
  stretch G p (t0 ++ [(n, d)]) p1.
Proof.
  intros Hn Hnp Hprops [M N U T O D C R] Hdeps Hreach.
  assert (Hnt : n ∉ t0.*1).
  { intros Hin. destruct (N n Hin). set_solver. }
  split.
  - set_solver.
  - intros x. rewrite fmap_app, elem_of_app. intros [Hx|Hx].
    + destruct (N x Hx). set_solver.
    + set_solver.
  - rewrite fmap_app. apply NoDup_app. split_and!; [done| |].
    + intros x Hx ?. assert (x = n) as -> by set_solver. done.
    + apply NoDup_singleton.
  - intros x d' [?|Hx]%elem_of_app; [by eauto|].
    apply list_elem_of_singleton in Hx. by simplify_eq.
  - intros x Hx Hxp. destruct (decide (x = n)) as [->|].
    + apply elem_of_dom. eauto.
    + apply O; set_solver.
  - intros x d' Hx Hxp Hd' Hprops'. rewrite fmap_app, elem_of_app.
    destruct (decide (x = n)) as [->|]; [right; set_solver|].
    left. eapply D; eauto. set_solver.
  - intros x E Hx Hxp Hedge. destruct (decide (x = n)) as [->|]; [by eauto|].
    eapply C; eauto. set_solver.
  - intros D' E HD Hedge Hcyc. rewrite fmap_app in *.
    apply elem_of_app in HD as [HD|HD].
    + assert (E ≠ n).
      { intros ->. apply Hcyc. destruct (N D' HD). by apply Hreach. }
      destruct (R D' E HD Hedge Hcyc) as [?|[?|HE]].
      * left. set_solver.
      * right; left. by apply precedes_app_l.
      * right; right. set_solver.
    + assert (D' = n) as -> by set_solver.
      assert (E ≠ n). { intros ->. apply Hcyc. apply rtc_refl. }
      destruct (decide (E ∈ p)); [by left|]. right.
      destruct (decide (E ∈ t0.*1)).
      * left. apply precedes_app_lr; set_solver.
      * right. set_solver.
Qed.
End traversal.

(** ** The traversal establishes these guarantees *)

Section declared_stretch.
Context (G : gmap string SchemaNode).
Context (rec : string → SchemaNode → gset string →
               option (list (string * SchemaNode) * gset string)).
Hypothesis rec_visit :
  ∀ n d p t p', G !! n = Some d → rec n d p = Some (t, p') → visit G n p t p'.

Lemma extend_with_dependency_stretch ref acc p out p' :
  extend_with_dependency rec G ref acc p = Some (out, p') →
  ∃ t, out = acc ++ t ∧ stretch G p t p'
       ∧ (∀ E, Str.truthy ref = Some E → E ∈ dom G → E ∈ p')
       ∧ (∀ x, x ∈ p' → x ∉ p →
               ∃ E, Str.truthy ref = Some E ∧ E ∈ dom G ∧ reaches G E x).
Proof.
  unfold extend_with_dependency. intros Hrun.
  destruct (Str.truthy ref) as [name|] eqn:Href.
  - destruct (G !! name) as [d|] eqn:Hname.
    + destruct (rec name d p) as [[t p1]|] eqn:Hrec; simplify_eq/=.
      destruct (rec_visit _ _ _ _ _ Hname Hrec) as (Hst & Hin & Hreach).
      exists t. split_and!; [done..| |].
      * by intros ? [= <-] _.
      * intros x ??. exists name. split_and!; [done| |by auto].
        apply elem_of_dom. eauto.
    + simplify_eq/=. exists []. split_and!.
      * by rewrite app_nil_r.
      * apply stretch_refl.
      * intros E [= <-] [? ?]%elem_of_dom. congruence.
      * done.
  - simplify_eq/=. exists []. split_and!; [by rewrite app_nil_r| |done..].
    apply stretch_refl.
Qed.

Lemma dependencies_loop_stretch props acc p out p' :
  dependencies_loop rec G props acc p = Some (out, p') →
  ∃ t, out = acc ++ t ∧ stretch G p t p'
       ∧ (∀ prop E, prop ∈ props → E ∈ field_refs prop.2 → E ∈ dom G → E ∈ p')
       ∧ (∀ x, x ∈ p' → x ∉ p →
               ∃ prop E, prop ∈ props ∧ E ∈ field_refs prop.2 ∧ E ∈ dom G
                         ∧ reaches G E x).
Proof.
  revert acc p out p'.
  induction props as [|[prop_name details] rest IH]; intros acc p out p' Hrun.
  { simplify_eq/=. exists []. split_and!; [by rewrite app_nil_r| | |done].
    - apply stretch_refl.
    - intros ?? []%elem_of_nil. }
  simpl in Hrun.
  destruct (extend_with_dependency rec G (fd_ref details) acc p)
    as [[lines1 p1]|] eqn:H1; simplify_eq/=.
  destruct (extend_with_dependency rec G (item_ref details) lines1 p1)
    as [[lines2 p2]|] eqn:H2; simplify_eq/=.
  apply extend_with_dependency_stretch in H1 as (t1 & -> & S1 & V1 & R1).
  apply extend_with_dependency_stretch in H2 as (t2 & -> & S2 & V2 & R2).
  apply IH in Hrun as (t3 & -> & S3 & V3 & R3).
  exists (t1 ++ t2 ++ t3). split_and!.
  - reassoc.
  - eauto using stretch_app.
  - intros prop E [->|Hin]%elem_of_cons Hrefs HE; [|by eauto].
    unfold field_refs in Hrefs. simpl in Hrefs.
    apply elem_of_app in Hrefs as [Hr|Hr]; apply elem_of_option_list in Hr.
    + apply (st_mono _ _ _ _ S3), (st_mono _ _ _ _ S2). auto.
    + apply (st_mono _ _ _ _ S3). auto.
  - intros x Hx Hxp.
    destruct (decide (x ∈ p1)) as [Hx1|Hx1].
    { destruct (R1 x Hx1 Hxp) as (E & HE & ? & ?).
      exists (prop_name, details), E. split_and!; [left|..|done|done].
      unfold field_refs. simpl. rewrite elem_of_app, !elem_of_option_list. auto. }
    destruct (decide (x ∈ p2)) as [Hx2|Hx2].
    { destruct (R2 x Hx2 Hx1) as (E & HE & ? & ?).
      exists (prop_name, details), E. split_and!; [left|..|done|done].
      unfold field_refs. simpl. rewrite elem_of_app, !elem_of_option_list. auto. }
    destruct (R3 x Hx Hx2) as (prop & E & ? & ? & ? & ?).
    exists prop, E. split_and!; [by right|done..].
Qed.
End declared_stretch.

Lemma declared_visit G fuel n d p t p' :
  G !! n = Some d → declared fuel n d G p = Some (t, p') → visit G n p t p'.
Proof.
  revert n d p t p'.
  induction fuel as [|fuel IH]; intros n d p t p' Hn Hrun; [done|].
  simpl in Hrun. destruct (decide (n ∈ p)) as [Hin|Hnin].
  { simplify_eq. split_and!; [apply stretch_refl|done..]. }
  destruct (properties d) as [|prop props] eqn:Hprops.
  { simplify_eq. split_and!; [|set_solver|].
    - split.
      + set_solver.
      + intros ? []%elem_of_nil.
      + constructor.
      + intros ?? []%elem_of_nil.
      + intros x Hx Hxp. assert (x = n) as -> by set_solver.
        apply elem_of_dom. eauto.
      + intros x d' Hx Hxp Hd' ?. assert (x = n) as -> by set_solver.
        congruence.
      + intros x E Hx Hxp (d' & Hd' & (pr & Hpr & _) & _).
        assert (x = n) as -> by set_solver. simplify_eq.
        rewrite Hprops in Hpr. by apply elem_of_nil in Hpr.
      + intros ?? []%elem_of_nil.
    - intros x Hx Hxp. assert (x = n) as -> by set_solver. apply rtc_refl. }
  rewrite <-Hprops in Hrun.
  destruct (dependencies_loop _ G (properties d) [] ({[n]} ∪ p))
    as [[t0 p1]|] eqn:Hloop; simplify_eq/=.
  apply dependencies_loop_stretch in Hloop as (t1 & -> & S1 & V1 & R1); [|by eauto].
  simpl.
  assert (Hreach : ∀ x, x ∈ p' → x ∉ {[n]} ∪ p → reaches G n x).
  { intros x Hx Hxp. destruct (R1 x Hx Hxp) as (pr & E & ? & ? & ? & ?).
    eapply rtc_l; [|done]. exists d. split_and!; [done| |done]. by exists pr. }
  split_and!.
  - eapply stretch_wrap; eauto.
    + by rewrite Hprops.
    + intros E (d' & Hd' & (pr & ? & ?) & ?). simplify_eq. eauto.
  - apply (st_mono _ _ _ _ S1). set_solver.
  - intros x Hx Hxp. destruct (decide (x = n)) as [->|]; [apply rtc_refl|].
    apply Hreach; set_solver.
Qed.

(** The loop of [main]: each requested definition is marked. *)
Lemma models_loop_stretch G rec models acc p out p' :
  (∀ n d p t p', G !! n = Some d → rec n d p = Some (t, p') → visit G n p t p') →
  models_loop rec G models acc p = Some (out, p') →
  ∃ t, out = acc ++ t ∧ stretch G p t p'
       ∧ ∀ r, r ∈ models → r ∈ dom G → r ∈ p'.
Proof.
  intros Hrec. revert acc p out p'.
  induction models as [|r rest IH]; intros acc p out p' Hrun.
  { simplify_eq/=. exists []. split_and!; [by rewrite app_nil_r| |].
    - apply stretch_refl.
    - intros ? []%elem_of_nil. }
  simpl in Hrun. destruct (G !! r) as [d|] eqn:Hr.
  - destruct (rec r d p) as [[t1 p1]|] eqn:Hcall; simplify_eq/=.
    apply Hrec in Hcall as (S1 & Hin & _); [|done].
    apply IH in Hrun as (t2 & -> & S2 & V2).
    exists (t1 ++ t2). split_and!; [reassoc|by eauto using stretch_app|].
    intros r' [->|?]%elem_of_cons ?; [|by eauto].
    by apply (st_mono _ _ _ _ S2).
  - apply IH in Hrun as (t2 & -> & S2 & V2).
    exists t2. split_and!; [done..|].
    intros r' [->|?]%elem_of_cons Hdom; [|by eauto].
    apply elem_of_dom in Hdom as [? ?]. congruence.
Qed.

(** ** Termination: enough fuel always gives a result *)

Lemma unmarked_mono G p p' : p ⊆ p' → unmarked G p' ≤ unmarked G p.
Proof. intros. apply subseteq_size. set_solver. Qed.

Lemma unmarked_mark G n p :
  n ∈ dom G → n ∉ p → unmarked G ({[n]} ∪ p) < unmarked G p.
Proof. intros. apply subset_size. set_solver. Qed.

Lemma unmarked_empty G : unmarked G ∅ < depth_bound G.
Proof.
  unfold unmarked, depth_bound. rewrite difference_empty_L, size_dom. lia.
Qed.

Section total.
Context {A : Type} (G : gmap string SchemaNode).
Context (rec : string → SchemaNode → gset string → option (list A * gset string)).
Context (fuel : nat).
Hypothesis rec_total :
  ∀ n d p, G !! n = Some d → unmarked G p < fuel →
           ∃ out p', rec n d p = Some (out, p') ∧ p ⊆ p'.

Lemma extend_with_dependency_total ref acc p :
  unmarked G p < fuel →
  ∃ out p', extend_with_dependency rec G ref acc p = Some (out, p') ∧ p ⊆ p'.
Proof.
  intros Hp. unfold extend_with_dependency.
  destruct (Str.truthy ref) as [name|]; [|by eauto].
  destruct (G !! name) as [d|] eqn:Hname; [|by eauto].
  destruct (rec_total name d p Hname Hp) as (out & p' & -> & ?). simpl. eauto.
Qed.

Lemma dependencies_loop_total props acc p :
  unmarked G p < fuel →
  ∃ out p', dependencies_loop rec G props acc p = Some (out, p') ∧ p ⊆ p'.
Proof.
  revert acc p. induction props as [|[prop_name details] rest IH]; intros acc p Hp.
  { simpl. eauto. }
  simpl.
  destruct (extend_with_dependency_total (fd_ref details) acc p Hp)
    as (l1 & p1 & -> & Hp1). simpl.
  assert (unmarked G p1 < fuel) as Hm1.
  { pose proof (unmarked_mono G p p1 Hp1). lia. }
  destruct (extend_with_dependency_total (item_ref details) l1 p1 Hm1)
    as (l2 & p2 & -> & Hp2). simpl.
  assert (unmarked G p2 < fuel) as Hm2.
  { pose proof (unmarked_mono G p1 p2 Hp2). lia. }
  destruct (IH l2 p2 Hm2) as (out & p' & -> & ?).
  exists out, p'. split; [done|set_solver].
Qed.

Lemma models_loop_total models acc p :
  unmarked G p < fuel →
  ∃ out p', models_loop rec G models acc p = Some (out, p') ∧ p ⊆ p'.
Proof.
  revert acc p. induction models as [|r rest IH]; intros acc p Hp.
  { simpl. eauto. }
  simpl. destruct (G !! r) as [d|] eqn:Hr; [|by eauto].
  destruct (rec_total r d p Hr Hp) as (l1 & p1 & -> & Hp1). simpl.
  assert (unmarked G p1 < fuel) as Hm1.
  { pose proof (unmarked_mono G p p1 Hp1). lia. }
  destruct (IH (acc ++ l1) p1 Hm1) as (out & p' & -> & ?).
  exists out, p'. split; [done|set_solver].
Qed.
End total.

Lemma declared_total G fuel n d p :
  G !! n = Some d → unmarked G p < fuel →
  ∃ t p', declared fuel n d G p = Some (t, p') ∧ p ⊆ p'.
Proof.
  revert n d p. induction fuel as [|fuel IH]; intros n d p Hn Hp; [lia|].
  simpl. destruct (decide (n ∈ p)).
  { by eexists _, _. }
  destruct (properties d) as [|prop props] eqn:Hprops.
  { eexists _, _. split; [done|set_solver]. }
  rewrite <-Hprops.
  assert (unmarked G ({[n]} ∪ p) < fuel) as Hm.
  { assert (n ∈ dom G) as Hdom by (apply elem_of_dom; eauto).
    pose proof (unmarked_mark G n p Hdom ltac:(done)). lia. }
  destruct (dependencies_loop_total G _ fuel IH (properties d) [] _ Hm)
    as (out & p' & -> & ?).
  simpl. eexists _, _. split; [done|set_solver].
Qed.

(** ** More fuel changes nothing *)

Section more_fuel.
Context {A : Type} (G : gmap string SchemaNode).
Context (rec rec' : string → SchemaNode → gset string → option (list A * gset string)).
Hypothesis rec_le : ∀ n d p r, rec n d p = Some r → rec' n d p = Some r.

Lemma extend_with_dependency_le ref acc p r :
  extend_with_dependency rec G ref acc p = Some r →
  extend_with_dependency rec' G ref acc p = Some r.
Proof.
  unfold extend_with_dependency.
  destruct (Str.truthy ref) as [name|]; [|done].
  destruct (G !! name) as [d|]; [|done].
  destruct (rec name d p) as [[l p1]|] eqn:Hrec; [|done].
  by rewrite (rec_le _ _ _ _ Hrec).
Qed.

Lemma dependencies_loop_le props acc p r :
  dependencies_loop rec G props acc p = Some r →
  dependencies_loop rec' G props acc p = Some r.
Proof.
  revert acc p. induction props as [|[prop_name details] rest IH]; intros acc p; [done|].
  simpl.
  destruct (extend_with_dependency rec G (fd_ref details) acc p)
    as [[l1 p1]|] eqn:H1; [|done].
  rewrite (extend_with_dependency_le _ _ _ _ H1). simpl.
  destruct (extend_with_dependency rec G (item_ref details) l1 p1)
    as [[l2 p2]|] eqn:H2; [|done].
  rewrite (extend_with_dependency_le _ _ _ _ H2). simpl. apply IH.
Qed.
End more_fuel.

Lemma declared_more_fuel G fuel fuel' n d p r :
  fuel ≤ fuel' → declared fuel n d G p = Some r → declared fuel' n d G p = Some r.
Proof.
  revert fuel' n d p r. induction fuel as [|fuel IH]; intros fuel' n d p r Hle; [done|].
  destruct fuel' as [|fuel']; [lia|]. simpl.
  destruct (decide (n ∈ p)); [done|].
  destruct (properties d) as [|prop props] eqn:Hprops; [done|].
  rewrite <-Hprops.
  destruct (dependencies_loop _ G (properties d) [] ({[n]} ∪ p))
    as [[t0 p1]|] eqn:Hloop; [|done].
  erewrite dependencies_loop_le; [done| |exact Hloop].
  intros ????. apply IH. lia.
Qed.

(** ** The lines are those of the declarations, in their order *)

Section rendering.
Context (G : gmap string SchemaNode).
Context (rec_lines : string → SchemaNode → gset string → option (list string * gset string)).
Context (rec_decls : string → SchemaNode → gset string →
                     option (list (string * SchemaNode) * gset string)).
Hypothesis rec_render : ∀ n d p, rec_lines n d p = render <$> rec_decls n d p.

Lemma extend_with_dependency_render ref acc p :
  extend_with_dependency rec_lines G ref (acc ≫= block_of) p
  = render <$> extend_with_dependency rec_decls G ref acc p.
Proof.
  unfold extend_with_dependency.
  destruct (Str.truthy ref) as [name|]; [|done].
  destruct (G !! name) as [d|]; [|done].
  rewrite rec_render. destruct (rec_decls name d p) as [[t p1]|]; [|done].
  simpl. unfold render. simpl. by rewrite bind_app.
Qed.

Lemma dependencies_loop_render props acc p :
  dependencies_loop rec_lines G props (acc ≫= block_of) p
  = render <$> dependencies_loop rec_decls G props acc p.
Proof.
  revert acc p. induction props as [|[prop_name details] rest IH]; intros acc p; [done|].
  simpl. rewrite extend_with_dependency_render.
  destruct (extend_with_dependency rec_decls G (fd_ref details) acc p)
    as [[t1 p1]|]; [|done].
  simpl. rewrite extend_with_dependency_render.
  destruct (extend_with_dependency rec_decls G (item_ref details) t1 p1)
    as [[t2 p2]|]; [|done].
  simpl. apply IH.
Qed.

Lemma models_loop_render models acc p :
  models_loop rec_lines G models (acc ≫= block_of) p
  = render <$> models_loop rec_decls G models acc p.
Proof.
  revert acc p. induction models as [|r rest IH]; intros acc p; [done|].
  simpl. destruct (G !! r) as [d|]; [|by apply IH].
  rewrite rec_render. destruct (rec_decls r d p) as [[t1 p1]|]; [|done].
  simpl. rewrite <-IH. by rewrite bind_app.
Qed.
End rendering.

Lemma generate_interface_declared G fuel n d p :
  generate_interface fuel n d G p = render <$> declared fuel n d G p.
Proof.
  revert n d p. induction fuel as [|fuel IH]; intros n d p; [done|].
  simpl. destruct (decide (n ∈ p)); [done|].
  destruct (properties d) as [|prop props] eqn:Hprops; [done|].
  rewrite <-Hprops.
  pose proof (dependencies_loop_render G _ _ IH (properties d) [] ({[n]} ∪ p)) as Hr.
  change ([] ≫= block_of) with (@nil string) in Hr. rewrite Hr. clear Hr.
  destruct (dependencies_loop (λ n d p, declared fuel n d G p) G
              (properties d) [] ({[n]} ∪ p)) as [[t0 p1]|]; [|done].
  simpl. unfold render. simpl. rewrite bind_app. simpl.
  by rewrite app_nil_r.
Qed.

(** ** A run of [main] as a whole *)

Lemma models_loop_le {A} G
    (rec rec' : string → SchemaNode → gset string → option (list A * gset string))
    models acc p r :
  (∀ n d p r, rec n d p = Some r → rec' n d p = Some r) →
  models_loop rec G models acc p = Some r →
  models_loop rec' G models acc p = Some r.
Proof.
  intros Hle. revert acc p. induction models as [|m rest IH]; intros acc p; [done|].
  simpl. destruct (G !! m) as [d|]; [|by apply IH].
  destruct (rec m d p) as [[l p1]|] eqn:Hrec; [|done].
  rewrite (Hle _ _ _ _ Hrec). simpl. apply IH.
Qed.

(** What is in [output_lines] before the loop stays in front. *)
Lemma models_loop_prefix {A} G
    (rec : string → SchemaNode → gset string → option (list A * gset string))
    models pre acc p :
  models_loop rec G models (pre ++ acc) p
  = prod_map (app pre) id <$> models_loop rec G models acc p.
Proof.
  revert acc p. induction models as [|m rest IH]; intros acc p; [done|].
  simpl. destruct (G !! m) as [d|]; [|by apply IH].
  destruct (rec m d p) as [[l p1]|]; [|done].
  simpl. rewrite <-IH. by rewrite app_assoc.
Qed.

(** A requested model that is no definition is passed over. *)
Lemma models_loop_absent {A} G
    (rec : string → SchemaNode → gset string → option (list A * gset string))
    pre r post acc p :
  G !! r = None →
  models_loop rec G (pre ++ r :: post) acc p = models_loop rec G (pre ++ post) acc p.
Proof.
  intros Hr. revert acc p. induction pre as [|m pre IH]; intros acc p; simpl.
  { by rewrite Hr. }
  destruct (G !! m) as [d|]; [|by apply IH].
  destruct (rec m d p) as [[l p1]|]; [|done]. simpl. apply IH.
Qed.

Lemma generate_interface_more_fuel G fuel fuel' n d p r :
  fuel ≤ fuel' →
  generate_interface fuel n d G p = Some r → generate_interface fuel' n d G p = Some r.
Proof.
  intros Hle. rewrite !generate_interface_declared.
  destruct (declared fuel n d G p) as [r0|] eqn:Hrun; [|done].
  by rewrite (declared_more_fuel _ _ _ _ _ _ _ Hle Hrun).
Qed.

Lemma main_for_declared G models :
  main_for models G = prod_map file_of id <$> main_declared models G.
Proof.
  unfold main_for, main_declared.
  pose proof (models_loop_render G _ _ (generate_interface_declared G (depth_bound G))
                models [] ∅) as Hr.
  change ([] ≫= block_of) with (@nil string) in Hr.
  rewrite <-(app_nil_r file_header) at 1. rewrite models_loop_prefix, Hr.
  destruct (models_loop (λ n d p, declared (depth_bound G) n d G p) G models [] ∅)
    as [[decls p]|]; [|done].
  reflexivity.
Qed.

(** Every run ends, and its declarations form one stretch from the empty
    [processed]. *)
Lemma run_summary G models :
  ∃ decls p,
    main_declared models G = Some (decls, p)
    ∧ main_for models G = Some (file_of decls, p)
    ∧ stretch G ∅ decls p
    ∧ ∀ r, r ∈ models → r ∈ dom G → r ∈ p.
Proof.
  destruct (models_loop_total G _ (depth_bound G)
              (declared_total G (depth_bound G)) models [] ∅ (unmarked_empty G))
    as (decls & p & Hrun & _).
  exists decls, p.
  destruct (models_loop_stretch G _ models [] ∅ decls p
              (declared_visit G (depth_bound G)) Hrun) as (t & Ht & Hst & Hroots).
  simpl in Ht. subst t.
  split_and!; [done| |done..].
  rewrite main_for_declared. unfold main_declared. by rewrite Hrun.
Qed.

(** The loop over a list of models in two parts. *)
Lemma models_loop_app {A} G
    (rec : string → SchemaNode → gset string → option (list A * gset string))
    l1 l2 acc p :
  models_loop rec G (l1 ++ l2) acc p
  = models_loop rec G l1 acc p ≫= λ '(out, p1), models_loop rec G l2 out p1.
Proof.
  revert acc p. induction l1 as [|m l1 IH]; intros acc p; [done|].
  simpl. destruct (G !! m) as [d|]; [|by apply IH].
  destruct (rec m d p) as [[l p1]|]; [|done]. simpl. apply IH.
Qed.

(** What the loop of [main] marks is reached from a requested definition. *)
Lemma models_loop_reach G rec models acc p out p' :
  (∀ n d p t p', G !! n = Some d → rec n d p = Some (t, p') → visit G n p t p') →
  models_loop rec G models acc p = Some (out, p') →
  ∀ x, x ∈ p' → x ∉ p → ∃ r, r ∈ models ∧ r ∈ dom G ∧ reaches G r x.
Proof.
  intros Hrec. revert acc p out p'.
  induction models as [|r rest IH]; intros acc p out p' Hrun x Hx Hxp.
  { by simplify_eq/=. }
  simpl in Hrun. destruct (G !! r) as [d|] eqn:Hr.
  - destruct (rec r d p) as [[t1 p1]|] eqn:Hcall; simplify_eq/=.
    apply Hrec in Hcall as (_ & _ & Hreach); [|done].
    destruct (decide (x ∈ p1)) as [Hx1|Hx1].
    + exists r. split_and!; [left| |by auto]. apply elem_of_dom. eauto.
    + destruct (IH _ _ _ _ Hrun x Hx Hx1) as (r' & ? & ? & ?).
      exists r'. split_and!; [by right|done..].
  - destruct (IH _ _ _ _ Hrun x Hx Hxp) as (r' & ? & ? & ?).
    exists r'. split_and!; [by right|done..].
Qed.

(** The set [processed] of a run: the definitions that the requested
    definitions reach. *)
Lemma run_reach G models decls p :
  main_declared models G = Some (decls, p) →
  stretch G ∅ decls p
  ∧ ∀ x, x ∈ p ↔ ∃ r, r ∈ models ∧ r ∈ dom G ∧ reaches G r x.
Proof.
  intros Hrun. unfold main_declared in Hrun.
  destruct (models_loop_stretch G _ models [] ∅ decls p
              (declared_visit G (depth_bound G)) Hrun) as (t & Ht & Hst & Hroots).
  simpl in Ht. subst t. split; [done|]. intros x. split.
  - intros Hx. eapply models_loop_reach; [|exact Hrun|done|set_solver].
    apply declared_visit.
  - intros (r & Hr & Hdom & Hreach). specialize (Hroots r Hr Hdom).
    clear Hr Hdom. induction Hreach as [|y z w Hedge _ IH]; [done|].
    apply IH. eapply (st_closed _ _ _ _ Hst); eauto. set_solver.
Qed.

(** With the fuel of [main] a call on a definition of the table returns. *)
Lemma generate_interface_total G n d p :
  G !! n = Some d →
  ∃ r, generate_interface (depth_bound G) n d G p = Some r.
Proof.
  intros Hn. rewrite generate_interface_declared.
  destruct (declared_total G (depth_bound G) n d p Hn) as (t & p' & -> & _).
  - unfold unmarked, depth_bound. rewrite <-size_dom.
    assert (size (dom G ∖ p) ≤ size (dom G)); [|lia].
    apply subseteq_size. set_solver.
  - by eexists.
Qed.

(** ** Headers in the text *)

Lemma field_lines_no_header required_fields prop :
  filter is_header (field_lines required_fields prop) = [].
Proof.
  destruct prop as [name d]. unfold field_lines.
  rewrite filter_app. case_bool_decide; by vm_compute.
Qed.

Lemma fields_no_header required_fields props :
  filter is_header (props ≫= field_lines required_fields) = [].
Proof.
  induction props as [|prop props IH]; [done|].
  rewrite bind_cons, filter_app, IH, field_lines_no_header. done.
Qed.

Lemma prefix_append s x : String.prefix s (s +:+ x) = true.
Proof.
  induction s as [|c s IH]; simpl; [by destruct x|].
  by destruct (ascii_dec c c).
Qed.

(** A block has one line that begins a declaration: its first after the
    comment. *)
Lemma block_header decl : filter is_header (block_of decl) = [header_of decl].
Proof.
  unfold block_of, interface_block. rewrite !filter_app, fields_no_header.
  rewrite (filter_cons_True is_header) by apply prefix_append.
  case_bool_decide; by vm_compute.
Qed.

Lemma blocks_headers decls :
  filter is_header (decls ≫= block_of) = header_of <$> decls.
Proof.
  induction decls as [|decl decls IH]; [done|].
  rewrite bind_cons, filter_app, IH, block_header. done.
Qed.

Lemma run_any_fuel G models decls p fuel :
  main_for models G = Some (file_of decls, p) → depth_bound G ≤ fuel →
  ∃ lines,
    models_loop (λ n d p, generate_interface fuel n d G p) G models file_header ∅
    = Some (lines, p) ∧ lines ++ utility_types = file_of decls.
Proof.
  unfold main_for. intros Hrun Hle.
  destruct (models_loop (λ n d p, generate_interface (depth_bound G) n d G p)
              G models file_header ∅) as [[lines p0]|] eqn:Hloop; [|done].
  simpl in Hrun. injection Hrun as Hlines ->.
  exists lines. split; [|done].
  eapply models_loop_le; [|exact Hloop].
  intros ????. by apply generate_interface_more_fuel.
Qed.

Lemma occurrences_le_1 x decls : NoDup decls.*1 → occurrences x decls ≤ 1.
Proof.
  unfold occurrences. generalize (decls.*1). intros l Hnd.
  induction Hnd as [|y l Hy Hnd IH]; [simpl; lia|].
  rewrite filter_cons. case_decide as Hyx; [|lia]. subst y. simpl.
  destruct (filter (λ y, y = x) l) as [|z l'] eqn:Hf; [simpl; lia|].
  assert (z ∈ filter (λ y, y = x) l) as Hin by (rewrite Hf; left).
  apply list_elem_of_filter in Hin as [-> ?]. done.
Qed.

Lemma occurrences_pos x decls : x ∈ decls.*1 ↔ 0 < occurrences x decls.
Proof.
  unfold occurrences. generalize (decls.*1). intros l. split.
  - intros Hx. assert (x ∈ filter (λ y, y = x) l) as Hin.
    { by apply list_elem_of_filter. }
    destruct (filter (λ y, y = x) l); [by apply elem_of_nil in Hin|simpl; lia].
  - intros Hlen. destruct (filter (λ y, y = x) l) as [|y l'] eqn:Hf; [simpl in Hlen; lia|].
    assert (y ∈ filter (λ y, y = x) l) as Hin by (rewrite Hf; left).
    apply list_elem_of_filter in Hin as [-> ?]. done.
Qed.

Lemma occurrences_1 x decls :
  NoDup decls.*1 → x ∈ decls.*1 ↔ occurrences x decls = 1.
Proof.
  intros Hnd. pose proof (occurrences_le_1 x decls Hnd).
  rewrite occurrences_pos. lia.
Qed.

(** ** Cycles, order and duplicates *)

(** C1, as the code has it: with two definitions [A] and [B] that reference
    each other in the table, a run over any list of requested models ends
    (whatever fuel at least [depth_bound] the calls get, the result is the
    same), and it declares each of [A] and [B] at most once, one exactly
    once if and only if the other.  Both are declared exactly once when a
    requested model that is a definition reaches [A] or [B] through
    references between definitions, in particular when [A] or [B] is
    requested; otherwise neither is declared. *)
Theorem cycle_terminates G models A B dA dB :
  G !! A = Some dA → G !! B = Some dB →
  references dA B → references dB A →
  ∃ decls p,
    main_declared models G = Some (decls, p)
    ∧ main_for models G = Some (file_of decls, p)
    ∧ (∀ fuel, depth_bound G ≤ fuel →
         ∃ lines,
           models_loop (λ n d p, generate_interface fuel n d G p)
             G models file_header ∅ = Some (lines, p)
           ∧ lines ++ utility_types = file_of decls)
    ∧ occurrences A decls ≤ 1 ∧ occurrences B decls ≤ 1
    ∧ (occurrences A decls = 1 ↔ occurrences B decls = 1)
    ∧ (A ∈ models ∨ B ∈ models →
       occurrences A decls = 1 ∧ occurrences B decls = 1)
    ∧ ((∃ r, r ∈ models ∧ r ∈ dom G ∧ (reaches G r A ∨ reaches G r B)) →
       occurrences A decls = 1 ∧ occurrences B decls = 1)
    ∧ (¬ (∃ r, r ∈ models ∧ r ∈ dom G ∧ (reaches G r A ∨ reaches G r B)) →
       occurrences A decls = 0 ∧ occurrences B decls = 0).
Proof.
  intros HA HB HAB HBA.
  destruct (run_summary G models) as (decls & p & Hdecl & Hmain & Hst & Hroots).
  destruct (run_reach G models decls p Hdecl) as [_ Hp].
  exists decls, p. pose proof (st_nodup _ _ _ _ Hst) as Hnd.
  assert (HeAB : edge G A B).
  { exists dA. split_and!; [done..|]. apply elem_of_dom. eauto. }
  assert (HeBA : edge G B A).
  { exists dB. split_and!; [done..|]. apply elem_of_dom. eauto. }
  assert (HpA : properties dA ≠ []).
  { destruct HAB as (pr & Hpr & _). intros Heq. rewrite Heq in Hpr.
    by apply elem_of_nil in Hpr. }
  assert (HpB : properties dB ≠ []).
  { destruct HBA as (pr & Hpr & _). intros Heq. rewrite Heq in Hpr.
    by apply elem_of_nil in Hpr. }
  assert (Hmark : ∀ x d, G !! x = Some d → properties d ≠ [] →
                         x ∈ p ↔ x ∈ decls.*1).
  { intros x d Hx Hpx. split.
    - intros Hin. eapply (st_declared _ _ _ _ Hst); eauto. set_solver.
    - intros Hin. by destruct (st_new _ _ _ _ Hst x Hin). }
  assert (Hboth : A ∈ p ↔ B ∈ p).
  { split; intros Hin.
    - eapply (st_closed _ _ _ _ Hst); eauto. set_solver.
    - eapply (st_closed _ _ _ _ Hst); eauto. set_solver. }
  assert (Hiff : A ∈ decls.*1 ↔ B ∈ decls.*1).
  { rewrite <-(Hmark A dA), <-(Hmark B dB); done. }
  assert (Hzero : ∀ x, x ∉ decls.*1 → occurrences x decls = 0).
  { intros x. rewrite occurrences_pos. lia. }
  assert (Hreached :
    (∃ r, r ∈ models ∧ r ∈ dom G ∧ (reaches G r A ∨ reaches G r B))
    ↔ A ∈ decls.*1).
  { rewrite <-(Hmark A dA) by done. split.
    - intros (r & Hr & Hdom & [Hreach|Hreach]).
      + apply Hp. eauto.
      + apply Hboth, Hp. eauto.
    - intros (r & Hr & Hdom & Hreach)%Hp. eauto 6. }
  split_and!; [done|done| |by apply occurrences_le_1..| | | |].
  - intros fuel Hfuel. by eapply run_any_fuel.
  - by rewrite <-!occurrences_1.
  - rewrite <-!occurrences_1 by done. intros [Hin|Hin].
    + assert (A ∈ decls.*1); [|tauto].
      apply (Hmark A dA); [done..|]. apply Hroots; [done|]. apply elem_of_dom; eauto.
    + assert (B ∈ decls.*1); [|tauto].
      apply (Hmark B dB); [done..|]. apply Hroots; [done|]. apply elem_of_dom; eauto.
  - rewrite <-!occurrences_1 by done. intros HA'%Hreached. tauto.
  - intros Hnot. split; apply Hzero; rewrite <-?Hiff, <-Hreached; done.
Qed.

(** C1, as stated, fails on the run that requests nothing: the two
    definitions reference each other and neither is declared. *)
Lemma cycle_not_requested :
  mutually_referencing Sample.cyclic "Demo.Ping" "Demo.Pong"
  ∧ ¬ ∃ decls p,
        main_declared [] Sample.cyclic = Some (decls, p)
        ∧ occurrences "Demo.Ping" decls = 1
        ∧ occurrences "Demo.Pong" decls = 1.
Proof.
  split.
  - exists Sample.ping, Sample.pong. split_and!; [done..| |].
    + exists ("pong", Sample.reference "Demo.Pong"). split; [left|left].
    + exists ("ping", Sample.reference "Demo.Ping"). split; [left|left].
  - intros (decls & p & Hrun & Hping & _). vm_compute in Hrun.
    by simplify_eq.
Qed.

Lemma cycle_terminates_witness :
  ∃ decls p,
    main_declared ["Demo.Ping"] Sample.cyclic = Some (decls, p)
    ∧ main_for ["Demo.Ping"] Sample.cyclic = Some (file_of decls, p)
    ∧ (∀ fuel, depth_bound Sample.cyclic ≤ fuel →
         ∃ lines,
           models_loop (λ n d p, generate_interface fuel n d Sample.cyclic p)
             Sample.cyclic ["Demo.Ping"] file_header ∅ = Some (lines, p)
           ∧ lines ++ utility_types = file_of decls)
    ∧ occurrences "Demo.Ping" decls ≤ 1 ∧ occurrences "Demo.Pong" decls ≤ 1
    ∧ (occurrences "Demo.Ping" decls = 1 ↔ occurrences "Demo.Pong" decls = 1)
    ∧ ("Demo.Ping" ∈ ["Demo.Ping"] ∨ "Demo.Pong" ∈ ["Demo.Ping"] →
       occurrences "Demo.Ping" decls = 1 ∧ occurrences "Demo.Pong" decls = 1)
    ∧ ((∃ r, r ∈ ["Demo.Ping"] ∧ r ∈ dom Sample.cyclic
             ∧ (reaches Sample.cyclic r "Demo.Ping"
                ∨ reaches Sample.cyclic r "Demo.Pong")) →
       occurrences "Demo.Ping" decls = 1 ∧ occurrences "Demo.Pong" decls = 1)
    ∧ (¬ (∃ r, r ∈ ["Demo.Ping"] ∧ r ∈ dom Sample.cyclic
               ∧ (reaches Sample.cyclic r "Demo.Ping"
                  ∨ reaches Sample.cyclic r "Demo.Pong")) →
       occurrences "Demo.Ping" decls = 0 ∧ occurrences "Demo.Pong" decls = 0).
Proof.
  apply (cycle_terminates Sample.cyclic ["Demo.Ping"] "Demo.Ping" "Demo.Pong"
           Sample.ping Sample.pong).
  - reflexivity.
  - reflexivity.
  - exists ("pong", Sample.reference "Demo.Pong"). split; [left|left].
  - exists ("ping", Sample.reference "Demo.Ping"). split; [left|left].
Defined.

(** C2, as the code has it: when a definition [D] references a definition
    [E] (by a property's own reference or by the reference of its array
    items) and [E] does not lead back to [D] through references between
    definitions of the table, then in every run that declares [D] the
    declaration of [E] stands before that of [D] or is absent, and never
    stands after it. *)
Theorem dependency_declared_first G models D E dD :
  G !! D = Some dD → references dD E → ¬ reaches G E D →
  ∃ decls p,
    main_declared models G = Some (decls, p)
    ∧ main_for models G = Some (file_of decls, p)
    ∧ (D ∈ decls.*1 →
       (precedes decls.*1 E D ∨ occurrences E decls = 0)
       ∧ ¬ precedes decls.*1 D E).
Proof.
  intros HD Href Hcyc.
  destruct (run_summary G models) as (decls & p & Hdecl & Hmain & Hst & _).
  exists decls, p. split_and!; [done..|]. intros Hin.
  pose proof (st_nodup _ _ _ _ Hst) as Hnd.
  assert (Hzero : E ∉ decls.*1 → occurrences E decls = 0).
  { rewrite occurrences_pos. lia. }
  assert (Hfirst : precedes decls.*1 E D ∨ E ∉ decls.*1).
  { destruct (decide (E ∈ dom G)) as [HE|HE].
    - destruct (st_order _ _ _ _ Hst D E) as [?|?]; [done| |done|set_solver|done].
      exists dD. by split_and!.
    - right. intros HEin. apply HE.
      destruct (st_new _ _ _ _ Hst E HEin). by eapply (st_dom _ _ _ _ Hst). }
  split.
  - destruct Hfirst; auto.
  - intros Hafter. destruct Hfirst as [Hbefore|Habsent].
    + by eapply precedes_asym.
    + by apply precedes_elem_of in Hafter as [_ ?].
Qed.

(** C2, as stated, fails on a cycle: requested alone, [Demo.Ping] has the
    declaration of [Demo.Pong] in front of its own, and [Demo.Pong]
    references [Demo.Ping]. *)
Lemma cycle_dependency_declared_after :
  Sample.cyclic !! "Demo.Pong" = Some Sample.pong
  ∧ references Sample.pong "Demo.Ping"
  ∧ ∃ decls p,
      main_declared ["Demo.Ping"] Sample.cyclic = Some (decls, p)
      ∧ "Demo.Pong" ∈ decls.*1
      ∧ precedes decls.*1 "Demo.Pong" "Demo.Ping"
      ∧ ¬ (precedes decls.*1 "Demo.Ping" "Demo.Pong"
           ∨ occurrences "Demo.Ping" decls = 0).
Proof.
  split; [reflexivity|]. split.
  { exists ("ping", Sample.reference "Demo.Ping"). split; [left|left]. }
  destruct (run_summary Sample.cyclic ["Demo.Ping"]) as (decls & p & Hrun & _).
  exists decls, p. split; [done|].
  vm_compute in Hrun. injection Hrun as <- _.
  assert (Hbefore : precedes [("Demo.Pong", Sample.pong); ("Demo.Ping", Sample.ping)].*1
                      "Demo.Pong" "Demo.Ping").
  { by exists [], [], []. }
  split_and!; [left|done|].
  intros [Hafter|Hnone]; [|by vm_compute in Hnone].
  eapply precedes_asym; [|exact Hbefore|exact Hafter].
  apply (bool_decide_unpack _). by vm_compute.
Qed.

Lemma dependency_declared_first_witness :
  ∃ decls p,
    main_declared ["Api.Appointment"] Sample.booking = Some (decls, p)
    ∧ main_for ["Api.Appointment"] Sample.booking = Some (file_of decls, p)
    ∧ ("Api.Appointment" ∈ decls.*1 →
       (precedes decls.*1 "Api.Client" "Api.Appointment"
        ∨ occurrences "Api.Client" decls = 0)
       ∧ ¬ precedes decls.*1 "Api.Appointment" "Api.Client").
Proof.
  apply (dependency_declared_first Sample.booking ["Api.Appointment"]
           "Api.Appointment" "Api.Client" Sample.appointment).
  - reflexivity.
  - exists ("Client", Sample.reference "Api.Client"). split; [right; left|left].
  - intros [Heq|(y & (d & Hd & (pr & Hpr & Hy) & _) & _)]%rtc_inv; [done|].
    vm_compute in Hd. injection Hd as <-.
    apply elem_of_cons in Hpr as [->|Hpr]; [by apply elem_of_nil in Hy|].
    apply elem_of_cons in Hpr as [->|Hpr]; [by apply elem_of_nil in Hy|].
    by apply elem_of_nil in Hpr.
Defined.



(** C10: a requested model that is no definition of the table is passed
    over: the run is the run without it (same lines, same [processed], so
    the other models are handled as before), it ends, the name is not in the
    final [processed] and nothing is declared for it. *)
Theorem absent_model_skipped G pre r post :
  G !! r = None →
  main_for (pre ++ r :: post) G = main_for (pre ++ post) G
  ∧ main_declared (pre ++ r :: post) G = main_declared (pre ++ post) G
  ∧ ∃ decls p,
      main_for (pre ++ r :: post) G = Some (file_of decls, p)
      ∧ r ∉ p ∧ occurrences r decls = 0.
Proof.
  intros Hr.
  assert (Hsame : main_declared (pre ++ r :: post) G = main_declared (pre ++ post) G).
  { unfold main_declared. by apply models_loop_absent. }
  split_and!; [|done|].
  - by rewrite !main_for_declared, Hsame.
  - destruct (run_summary G (pre ++ r :: post)) as (decls & p & _ & Hmain & Hst & _).
    exists decls, p. split; [done|].
    assert (r ∉ p) as Hnp.
    { intros Hin. apply (st_dom _ _ _ _ Hst) in Hin; [|set_solver].
      apply elem_of_dom in Hin as [? ?]. congruence. }
    split; [done|].
    assert (r ∉ decls.*1) as Hnd.
    { intros Hin. by destruct (st_new _ _ _ _ Hst r Hin). }
    rewrite occurrences_pos in Hnd. lia.
Qed.

Lemma absent_model_skipped_witness :
  main_for (["Api.Appointment"] ++ "Api.Missing" :: ["Api.Client"]) Sample.booking
  = main_for (["Api.Appointment"] ++ ["Api.Client"]) Sample.booking
  ∧ main_declared (["Api.Appointment"] ++ "Api.Missing" :: ["Api.Client"]) Sample.booking
    = main_declared (["Api.Appointment"] ++ ["Api.Client"]) Sample.booking
  ∧ ∃ decls p,
      main_for (["Api.Appointment"] ++ "Api.Missing" :: ["Api.Client"]) Sample.booking
      = Some (file_of decls, p)
      ∧ "Api.Missing" ∉ p ∧ occurrences "Api.Missing" decls = 0.
Proof.
  apply (absent_model_skipped Sample.booking ["Api.Appointment"] "Api.Missing"
           ["Api.Client"]).
  reflexivity.
Defined.

(** ** The last segment of a name *)

Lemma chars_append a b :
  String.list_ascii_of_string (a +:+ b)
  = String.list_ascii_of_string a ++ String.list_ascii_of_string b.
Proof. induction a as [|c a IH]; simpl; [done|]. by rewrite IH. Qed.

Lemma split_nonempty sep s : Str.split sep s ≠ [].
Proof.
  destruct s as [|c s]; simpl; [done|].
  case_decide; [done|]. by destruct (Str.split sep s).
Qed.

Lemma split_no_sep sep s :
  sep ∉ String.list_ascii_of_string s → Str.split sep s = [s].
Proof.
  induction s as [|c s IH]; simpl; [done|].
  intros [Hc Hs]%not_elem_of_cons. rewrite decide_False by done.
  by rewrite IH.
Qed.

Lemma split_with_sep sep s :
  sep ∈ String.list_ascii_of_string s → ∃ w w' ws, Str.split sep s = w :: w' :: ws.
Proof.
  induction s as [|c s IH]; simpl; [by intros ?%elem_of_nil|].
  intros Hin. case_decide as Hc.
  - pose proof (split_nonempty sep s). destruct (Str.split sep s); [done|]. eauto.
  - apply elem_of_cons in Hin as [?|Hin]; [done|].
    destruct (IH Hin) as (w & w' & ws & ->). eauto.
Qed.

Lemma split_segments sep s w :
  w ∈ Str.split sep s → sep ∉ String.list_ascii_of_string w.
Proof.
  revert w. induction s as [|c s IH]; simpl; intros w.
  { intros ->%list_elem_of_singleton. apply not_elem_of_nil. }
  case_decide as Hc.
  - intros [->|?]%elem_of_cons; [apply not_elem_of_nil|by auto].
  - pose proof (split_nonempty sep s).
    destruct (Str.split sep s) as [|w0 ws]; [done|].
    intros [->|?]%elem_of_cons.
    + simpl. apply not_elem_of_cons. split; [done|]. apply IH. left.
    + apply IH. by right.
Qed.

Lemma last_elem_of {A} (l : list A) d : l ≠ [] → List.last l d ∈ l.
Proof.
  induction l as [|x [|y l] IH]; [done|left|]. intros _. right. by apply IH.
Qed.

(** The last segment is what follows the last dot, or the whole name when
    it has no dot. *)
Lemma last_segment_dotted name :
  (∀ q s, "."%char ∉ String.list_ascii_of_string s → name = q +:+ "." +:+ s →
          Str.last_segment name = s)
  ∧ ("."%char ∉ String.list_ascii_of_string name → Str.last_segment name = name).
Proof.
  unfold Str.last_segment. split.
  - intros q s Hs ->. induction q as [|c q IH]; simpl.
    + by rewrite split_no_sep.
    + assert ("."%char ∈ String.list_ascii_of_string (q +:+ "." +:+ s)) as Hdot.
      { rewrite chars_append. simpl. set_solver. }
      destruct (split_with_sep _ _ Hdot) as (w & w' & ws & Hsplit).
      rewrite Hsplit in *. by case_decide.
  - intros Hs. by rewrite split_no_sep.
Qed.

(** ** The type mapper *)

(** The recursion equation of the Python function: the self-call is the
    function itself at default [prop_ref], [prop_items] and [enum]. *)
Lemma swagger_type_to_typescript_unfold pt pf pr pi en :
  swagger_type_to_typescript pt pf pr pi en =
  swagger_body (λ t f, swagger_type_to_typescript t f None None None)
    pt pf pr pi en.
Proof. reflexivity. Qed.

Lemma truthy_Some name : name ≠ "" → Str.truthy (Some name) = Some name.
Proof. by destruct name. Qed.

Lemma truthy_inv o name : Str.truthy o = Some name → o = Some name ∧ name ≠ "".
Proof. destruct o as [[|c s]|]; naive_solver. Qed.

(** The date-time test never changes the type. *)
Lemma primitive_lookup pt pf :
  swagger_type_to_typescript pt pf None None None
  = if bool_decide (pt = Some "array") then "unknown[]"
    else dict_get type_map pt "unknown".
Proof.
  unfold swagger_type_to_typescript, swagger_body. simpl.
  case_bool_decide; [done|].
  destruct (bool_decide (pf = Some "date-time")); [|done]. simpl.
  by case_bool_decide.
Qed.

(** C4: the mapper takes the first of four cases that applies.  A reference
    (present and not empty) gives the last segment of its name, that is what
    follows its last dot or the whole name when it has no dot, whatever else
    the descriptor carries; failing that, enum values give the values in
    their order, each between two double quotes (character 34), joined by
    [ | ]; failing that, the type [array] gives an item type followed by
    [[]]; failing that, the type is looked up in the table, with [unknown]
    for any other. *)
Theorem resolution_priority pt pf pr pi en :
  (∀ ref, Str.truthy pr = Some ref →
     swagger_type_to_typescript pt pf pr pi en = Str.last_segment ref
     ∧ (∀ q s, "."%char ∉ String.list_ascii_of_string s → ref = q +:+ "." +:+ s →
               swagger_type_to_typescript pt pf pr pi en = s)
     ∧ ("."%char ∉ String.list_ascii_of_string ref →
        swagger_type_to_typescript pt pf pr pi en = ref))
  ∧ (∀ e es, Str.truthy pr = None → en = Some (e :: es) →
     swagger_type_to_typescript pt pf pr pi en
     = Str.join " | " (quoted <$> e :: es)
     ∧ swagger_type_to_typescript pt pf pr pi en
       = String.concat " | "
           ((λ v, String "034"%char (v +:+ String "034"%char "")) <$> e :: es))
  ∧ (Str.truthy pr = None → en = None ∨ en = Some [] → pt = Some "array" →
     ∃ item_type, swagger_type_to_typescript pt pf pr pi en = item_type +:+ "[]")
  ∧ (Str.truthy pr = None → en = None ∨ en = Some [] → pt ≠ Some "array" →
     swagger_type_to_typescript pt pf pr pi en = dict_get type_map pt "unknown").
Proof.
  unfold swagger_type_to_typescript, swagger_body. split_and!.
  - intros ref ->. destruct (last_segment_dotted ref) as [Hq Hs].
    split_and!; [done| |done]. intros q s ??. by apply (Hq q s).
  - by intros e es -> ->.
  - intros -> Hen ->. rewrite bool_decide_eq_true_2 by done.
    assert (∃ item_type,
      match pi with
      | Some items =>
          if dict_truthy items
          then match Str.truthy (fd_ref items) with
               | Some item_ref => Str.last_segment item_ref +:+ "[]"
               | None =>
                   swagger_type_of_item (Some (default "unknown" (fd_type items)))
                     (fd_format items) +:+ "[]"
               end
          else "unknown[]"
      | None => "unknown[]"
      end = item_type +:+ "[]") as Harr.
    { destruct pi as [items|]; [|by exists "unknown"].
      destruct (dict_truthy items); [|by exists "unknown"].
      destruct (Str.truthy (fd_ref items)); eauto. }
    by destruct Hen as [->| ->].
  - intros -> Hen Hpt. rewrite bool_decide_eq_false_2 by done.
    assert ((if bool_decide (pf = Some "date-time")
                && bool_decide (dict_get type_map pt "unknown" = "string")
             then "string" else dict_get type_map pt "unknown")
            = dict_get type_map pt "unknown") as Hprim.
    { destruct (bool_decide (pf = Some "date-time")); [|done]. simpl.
      by case_bool_decide. }
    by destruct Hen as [->| ->].
Qed.

Lemma resolution_priority_witness :
  ts_type_of Sample.crowded = "Client"
  ∧ swagger_type_to_typescript (Some "array") None None
      (Some (Sample.primitive "integer")) (Some ["A"; "B"])
    = String "034"%char
        ("A" +:+ String "034"%char
                   (" | " +:+ String "034"%char ("B" +:+ String "034"%char "")))
  ∧ (∃ item_type,
       swagger_type_to_typescript (Some "array") (Some "date-time") (Some "")
         (Some (Sample.primitive "integer")) (Some []) = item_type +:+ "[]")
  ∧ swagger_type_to_typescript (Some "string") (Some "date-time") None
      (Some (Sample.primitive "integer")) None = "string".
Proof.
  split_and!.
  - destruct (resolution_priority (Some "array") (Some "date-time")
                (Some "Api.Models.Client") (Some (Sample.primitive "integer"))
                (Some ["A"; "B"])) as (Href & _).
    destruct (Href "Api.Models.Client" eq_refl) as (_ & Hdot & _).
    apply (Hdot "Api.Models" "Client"); [|done].
    apply (bool_decide_unpack _). by vm_compute.
  - destruct (resolution_priority (Some "array") None None
                (Some (Sample.primitive "integer")) (Some ["A"; "B"]))
      as (_ & Henum & _).
    exact (proj2 (Henum "A" ["B"] eq_refl eq_refl)).
  - destruct (resolution_priority (Some "array") (Some "date-time") (Some "")
                (Some (Sample.primitive "integer")) (Some []))
      as (_ & _ & Harray & _).
    apply Harray; [reflexivity|by right|reflexivity].
  - destruct (resolution_priority (Some "string") (Some "date-time") None
                (Some (Sample.primitive "integer")) None)
      as (_ & _ & _ & Hprim).
    apply Hprim; [reflexivity|by left|done].
Defined.

(** What the mapper makes of an array that has neither a reference nor enum
    values of its own: the reference of the items, or else their type
    alone. *)
Lemma array_rendering pf items :
  swagger_type_to_typescript (Some "array") pf None (Some items) None
  = match Str.truthy (fd_ref items) with
    | Some item_ref => Str.last_segment item_ref
    | None =>
        if bool_decide (fd_type items = Some "array") then "unknown[]"
        else dict_get type_map (fd_type items) "unknown"
    end +:+ "[]".
Proof.
  rewrite swagger_type_to_typescript_unfold. unfold swagger_body at 1.
  cbn [Str.truthy]. rewrite bool_decide_eq_true_2 by done.
  destruct (dict_truthy items) eqn:Htruthy.
  - destruct (Str.truthy (fd_ref items)); [done|].
    rewrite primitive_lookup. destruct (fd_type items) as [k|]; [|done].
    simpl. repeat case_bool_decide; congruence.
  - by destruct items as [[?|] [?|] [?|] [?|] [?|] [?|]].
Qed.

(** Where the mapper agrees with the specification on arrays: items that
    carry no items and no enum values of their own. *)
Lemma array_of_plain_item item :
  fd_items item = None → fd_enum item = None →
  ts_type_of (Sample.array_of item)
  = type_expression_by_spec (Sample.array_of item).
Proof.
  destruct item as [kind format ref items enum desc]. simpl. intros -> ->.
  unfold ts_type_of. cbn [Sample.array_of fd_type fd_format fd_ref fd_items fd_enum].
  rewrite array_rendering. simpl.
  by destruct (Str.truthy ref).
Qed.

(** C5: an array of arrays of strings.  The self-call gets the type and the
    format of the items only, not their items, so the inner array is mapped
    as one without items, where mapping the item descriptor itself gives
    [string[]] and so [string[][]]; likewise enum values of the items are
    not rendered. *)
Theorem nested_array_items_dropped :
  ts_type_of (Sample.array_of (Sample.array_of (Sample.primitive "string")))
  = "unknown[][]"
  ∧ type_expression_by_spec
      (Sample.array_of (Sample.array_of (Sample.primitive "string")))
    = "string[][]"
  ∧ ts_type_of (Sample.array_of (Sample.primitive "string")) = "string[]"
  ∧ ts_type_of (Sample.array_of (Sample.reference "Api.Models.Client"))
    = "Client[]"
  ∧ ts_type_of (MkField (Some "array") None None None None None) = "unknown[]"
  ∧ ts_type_of (Sample.array_of
                  (MkField (Some "string") None None None (Some ["A"; "B"]) None))
    = "string[]".
Proof. by vm_compute. Qed.

(** ** The block of one declaration *)

#[local] Instance name_le_trans : Transitive name_le.
Proof. intros x y z. unfold name_le. apply transitivity. Qed.

#[local] Instance name_le_total : Total name_le.
Proof. intros x y. unfold name_le. apply total, _. Qed.

(** A dict has one value for a key. *)
Lemma NoDup_keys_eq {B} (l : list (string * B)) x y :
  NoDup l.*1 → x ∈ l → y ∈ l → x.1 = y.1 → x = y.
Proof.
  induction l as [|z l IH]; csimpl; intros Hnd Hx Hy Hxy.
  { by apply elem_of_nil in Hx. }
  apply NoDup_cons in Hnd as [Hz Hnd].
  apply elem_of_cons in Hx as [->|Hx], Hy as [->|Hy]; [done| | |by eauto].
  - destruct Hz. rewrite Hxy. by apply list_elem_of_fmap_2.
  - destruct Hz. rewrite <-Hxy. by apply list_elem_of_fmap_2.
Qed.

Lemma sorted_items_Permutation props : sorted_items props ≡ₚ props.
Proof. apply merge_sort_Permutation. Qed.

Lemma sorted_items_names props :
  StronglySorted String.le (sorted_items props).*1.
Proof.
  apply (StronglySorted_fmap _ name_le); [done|].
  apply StronglySorted_merge_sort; apply _.
Qed.

Lemma sorted_items_unique props props' :
  NoDup props.*1 → props' ≡ₚ props → sorted_items props' = sorted_items props.
Proof.
  intros Hnd Hperm. apply (StronglySorted_unique_strong name_le).
  - intros x y Hx Hy Hxy Hyx.
    rewrite sorted_items_Permutation in Hx, Hy. rewrite Hperm in Hx.
    apply (NoDup_keys_eq props); [done..|].
    by apply (anti_symm String.le).
  - apply StronglySorted_merge_sort; apply _.
  - apply StronglySorted_merge_sort; apply _.
  - by rewrite !sorted_items_Permutation.
Qed.

(** C6: the field lines of a declaration do not depend on the order in which
    the properties dict yields its entries.  For any rearrangement [props']
    of the properties of [node] the block is the same, line for line; its
    field lines are those of the properties sorted by name, each property
    once, the names in lexicographic order. *)
Theorem field_order_independent short node props' :
  NoDup (properties node).*1 → props' ≡ₚ properties node →
  interface_block short (MkNode props' (required node) (description node))
  = interface_block short node
  ∧ (∃ doc,
       interface_block short node
       = doc ++ ["export interface " +:+ short +:+ " {"]
             ++ (sorted_items (properties node) ≫= field_lines (required node))
             ++ ["}"; ""])
  ∧ sorted_items props' = sorted_items (properties node)
  ∧ sorted_items (properties node) ≡ₚ properties node
  ∧ StronglySorted String.le (sorted_items (properties node)).*1.
Proof.
  intros Hnd Hperm.
  pose proof (sorted_items_unique _ _ Hnd Hperm) as Hsame.
  split_and!.
  - unfold interface_block. simpl. by rewrite Hsame.
  - by eexists.
  - done.
  - apply sorted_items_Permutation.
  - apply sorted_items_names.
Qed.

Lemma field_order_independent_witness :
  interface_block "Client"
    (MkNode [("Id", Sample.primitive "integer"); ("Name", Sample.primitive "string")]
       (required Sample.client) (description Sample.client))
  = interface_block "Client" Sample.client
  ∧ (∃ doc,
       interface_block "Client" Sample.client
       = doc ++ ["export interface " +:+ "Client" +:+ " {"]
             ++ (sorted_items (properties Sample.client)
                   ≫= field_lines (required Sample.client))
             ++ ["}"; ""])
  ∧ sorted_items [("Id", Sample.primitive "integer"); ("Name", Sample.primitive "string")]
    = sorted_items (properties Sample.client)
  ∧ sorted_items (properties Sample.client) ≡ₚ properties Sample.client
  ∧ StronglySorted String.le (sorted_items (properties Sample.client)).*1.
Proof.
  apply (field_order_independent "Client" Sample.client
           [("Id", Sample.primitive "integer"); ("Name", Sample.primitive "string")]).
  - apply (bool_decide_unpack _). by vm_compute.
  - apply perm_swap.
Defined.

Lemma field_line_in_block short node prop :
  prop ∈ properties node →
  ∀ line, line ∈ field_lines (required node) prop →
          line ∈ interface_block short node.
Proof.
  intros Hprop line Hline. unfold interface_block.
  rewrite !elem_of_app. right; right; left.
  apply list_elem_of_bind. exists prop. split; [done|].
  by rewrite sorted_items_Permutation.
Qed.

(** C7: the line of a field carries [?] after the name exactly when the name
    is not among the required fields.  For a property [name] of [node], the
    last line the loop appends for it, which is a line of the block, is
    [name: type;] when [name] is required and [name?: type;] when it is
    not. *)
Theorem optional_marker_iff_not_required short node name d :
  (name, d) ∈ properties node →
  ∃ line,
    last (field_lines (required node) (name, d)) = Some line
    ∧ line ∈ interface_block short node
    ∧ (name ∈ required node →
       line = "  " +:+ name +:+ ": " +:+ ts_type_of d +:+ ";")
    ∧ (name ∉ required node →
       line = "  " +:+ name +:+ "?: " +:+ ts_type_of d +:+ ";").
Proof.
  intros Hprop.
  exists ("  " +:+ name +:+ optional_marker (required node) name
          +:+ ": " +:+ ts_type_of d +:+ ";").
  assert (Hlast : last (field_lines (required node) (name, d))
                  = Some ("  " +:+ name +:+ optional_marker (required node) name
                          +:+ ": " +:+ ts_type_of d +:+ ";")).
  { unfold field_lines. by rewrite last_snoc. }
  split_and!; [done| | |].
  - eapply field_line_in_block; [done|]. by apply last_Some_elem_of.
  - intros Hreq. unfold optional_marker. by rewrite bool_decide_eq_true_2.
  - intros Hreq. unfold optional_marker. by rewrite bool_decide_eq_false_2.
Qed.

Lemma optional_marker_iff_not_required_witness :
  ∃ line,
    last (field_lines (required Sample.client) ("Name", Sample.primitive "string"))
    = Some line
    ∧ line ∈ interface_block "Client" Sample.client
    ∧ ("Name" ∈ required Sample.client →
       line = "  " +:+ "Name" +:+ ": "
              +:+ ts_type_of (Sample.primitive "string") +:+ ";")
    ∧ ("Name" ∉ required Sample.client →
       line = "  " +:+ "Name" +:+ "?: "
              +:+ ts_type_of (Sample.primitive "string") +:+ ";").
Proof.
  apply (optional_marker_iff_not_required "Client" Sample.client "Name"
           (Sample.primitive "string")).
  left.
Defined.

(** C8: a description of two lines with blanks around it, given both to a
    definition and to its one field.  The comment of the field has the line
    break turned into a space and the blanks at both ends removed; the
    comment of the declaration has the description as it is, line break and
    blanks included. *)
Theorem declaration_comment_not_cleaned :
  interface_block "Documented" Sample.documented
  = [ "/**";
      " *  first" +:+ String Str.lf "second ";
      " */";
      "export interface Documented {";
      "  /** first second */";
      "  Id?: number;";
      "}";
      "" ]
  ∧ clean_desc Sample.two_lines = "first second"
  ∧ " * " +:+ Sample.two_lines ≠ " * " +:+ clean_desc Sample.two_lines.
Proof. split_and!; [by vm_compute..|]. vm_compute. discriminate. Qed.

(** ** The cleaning of a field comment *)

Lemma chars_replace_lf s : Str.lf ∉ String.list_ascii_of_string (Str.replace_lf s).
Proof.
  induction s as [|c s IH]; simpl; [apply not_elem_of_nil|].
  apply not_elem_of_cons. split; [|done]. by case_decide.
Qed.

Lemma chars_lstrip s c :
  c ∈ String.list_ascii_of_string (Str.lstrip s) → c ∈ String.list_ascii_of_string s.
Proof.
  induction s as [|a s IH]; simpl; [done|].
  destruct (Str.is_space a); [|done]. intros ?. right. auto.
Qed.

Lemma chars_rstrip s c :
  c ∈ String.list_ascii_of_string (Str.rstrip s) → c ∈ String.list_ascii_of_string s.
Proof.
  induction s as [|a s IH]; simpl; [done|].
  destruct (Str.rstrip s) as [|b r].
  - destruct (Str.is_space a); simpl; [by intros ?%elem_of_nil|].
    intros ->%list_elem_of_singleton. left.
  - simpl in *. intros [->|?]%elem_of_cons; [left|right; auto].
Qed.

Lemma lstrip_head s c r : Str.lstrip s = String c r → Str.is_space c = false.
Proof.
  induction s as [|a s IH]; simpl; [done|].
  destruct (Str.is_space a) eqn:Ha; [done|]. by intros [= <- _].
Qed.

Lemma rstrip_head s c r : Str.rstrip s = String c r → ∃ r', s = String c r'.
Proof.
  destruct s as [|a s]; simpl; [done|].
  destruct (Str.rstrip s); [destruct (Str.is_space a)|]; intros [= <- _]; eauto.
Qed.

Lemma rstrip_last s c :
  last (String.list_ascii_of_string (Str.rstrip s)) = Some c → Str.is_space c = false.
Proof.
  induction s as [|a s IH]; simpl; [done|].
  destruct (Str.rstrip s) as [|b r].
  - destruct (Str.is_space a) eqn:Ha; simpl; [done|]. by intros [= <-].
  - simpl in *. done.
Qed.

(** What line 123 achieves for a field comment: no line feed is left in it,
    and it neither begins nor ends with a blank. *)
Lemma clean_desc_normalized prop_desc :
  Str.lf ∉ String.list_ascii_of_string (clean_desc prop_desc)
  ∧ (∀ c r, clean_desc prop_desc = String c r → Str.is_space c = false)
  ∧ (∀ c, last (String.list_ascii_of_string (clean_desc prop_desc)) = Some c →
          Str.is_space c = false).
Proof.
  unfold clean_desc, Str.strip. split_and!.
  - intros Hin. by apply chars_rstrip, chars_lstrip, chars_replace_lf in Hin.
  - intros c r Hr. apply rstrip_head in Hr as [r' Hr]. by eapply lstrip_head.
  - apply rstrip_last.
Qed.

(** ** References to names outside the table *)

Lemma array_rendering_unmarked pf pr items en :
  Str.truthy pr = None → en = None ∨ en = Some [] →
  swagger_type_to_typescript (Some "array") pf pr (Some items) en
  = swagger_type_to_typescript (Some "array") pf None (Some items) None.
Proof.
  intros Hpr Hen. unfold swagger_type_to_typescript, swagger_body.
  rewrite Hpr. by destruct Hen as [->| ->].
Qed.

Lemma item_ref_inv d E :
  Str.truthy (item_ref d) = Some E →
  fd_type d = Some "array"
  ∧ ∃ items, fd_items d = Some items ∧ Str.truthy (fd_ref items) = Some E.
Proof.
  unfold item_ref. case_bool_decide as Harr; [|done].
  destruct (fd_items d) as [items|]; [|done]. eauto.
Qed.

(** C9, as the code has it: a property [d] whose reference, or whose array
    items' reference, is a name [E] that the table does not define.  The
    dependency loop makes no call for [E] and fails in nothing: its step
    returns the lines and [processed] it was given, whatever a call would
    do.  Every run ends without [E] in [processed] and without a declaration
    for it.  When [E] is the property's own reference, the type of the
    property is the last segment of [E]: what follows its last dot, or [E]
    itself when it has none.  When [E] is the reference of the items of an
    array that has no reference and no enum values of its own (these come
    first), the type is that last segment followed by [[]]. *)
Theorem missing_reference_skipped G models d E :
  E ∈ field_refs d → G !! E = None →
  (∀ (rec : string → SchemaNode → gset string → option (list string * gset string))
      lines p,
     extend_with_dependency rec G (Some E) lines p = Some (lines, p))
  ∧ (∃ decls p,
       main_declared models G = Some (decls, p)
       ∧ main_for models G = Some (file_of decls, p)
       ∧ E ∉ p ∧ occurrences E decls = 0)
  ∧ (Str.truthy (fd_ref d) = Some E →
     ts_type_of d = Str.last_segment E
     ∧ (∀ q s, "."%char ∉ String.list_ascii_of_string s → E = q +:+ "." +:+ s →
               ts_type_of d = s)
     ∧ ("."%char ∉ String.list_ascii_of_string E → ts_type_of d = E))
  ∧ (Str.truthy (fd_ref d) = None → fd_enum d = None ∨ fd_enum d = Some [] →
     Str.truthy (item_ref d) = Some E →
     ts_type_of d = Str.last_segment E +:+ "[]"
     ∧ (∀ q s, "."%char ∉ String.list_ascii_of_string s → E = q +:+ "." +:+ s →
               ts_type_of d = s +:+ "[]")
     ∧ ("."%char ∉ String.list_ascii_of_string E → ts_type_of d = E +:+ "[]")).
Proof.
  intros Hrefs HE.
  assert (Htruthy : Str.truthy (Some E) = Some E).
  { apply truthy_Some. unfold field_refs in Hrefs.
    apply elem_of_app in Hrefs as [Hr|Hr]; apply elem_of_option_list in Hr;
      by apply truthy_inv in Hr as [_ ?]. }
  destruct (last_segment_dotted E) as [Hq Hs].
  split_and!.
  - intros rec lines p. unfold extend_with_dependency. by rewrite Htruthy, HE.
  - destruct (run_summary G models) as (decls & p & Hdecl & Hmain & Hst & _).
    exists decls, p. split_and!; [done..| |].
    + intros Hin. apply (st_dom _ _ _ _ Hst) in Hin; [|set_solver].
      apply elem_of_dom in Hin as [? ?]. congruence.
    + assert (E ∉ decls.*1) as Hnd.
      { intros Hin. destruct (st_new _ _ _ _ Hst E Hin) as [Hp _].
        apply (st_dom _ _ _ _ Hst) in Hp; [|set_solver].
        apply elem_of_dom in Hp as [? ?]. congruence. }
      rewrite occurrences_pos in Hnd. lia.
  - intros Href.
    assert (ts_type_of d = Str.last_segment E) as Hty.
    { unfold ts_type_of, swagger_type_to_typescript, swagger_body.
      by rewrite Href. }
    rewrite Hty. split_and!; [done| |done]. intros q s ??. by apply (Hq q s).
  - intros Hnone Henum (Harr & items & Hitems & Href)%item_ref_inv.
    assert (ts_type_of d = Str.last_segment E +:+ "[]") as Hty.
    { unfold ts_type_of. rewrite Harr, Hitems.
      rewrite array_rendering_unmarked, array_rendering by done.
      by rewrite Href. }
    rewrite Hty. split_and!; [done| |by intros ->%Hs].
    intros q s ? Heq. by rewrite (Hq q s).
Qed.

(** C9, as stated, fails for the reference of array items: the type is the
    last segment followed by [[]], not the segment alone, and when the array
    has enum values of its own the name is not written at all. *)
Lemma array_items_reference_not_bare :
  "Api.Missing" ∈ field_refs (Sample.array_of (Sample.reference "Api.Missing"))
  ∧ "Api.Missing"
    ∈ field_refs (MkField (Some "array") None None
                    (Some (Sample.reference "Api.Missing")) (Some ["A"]) None)
  ∧ Sample.booking !! "Api.Missing" = None
  ∧ Str.last_segment "Api.Missing" = "Missing"
  ∧ ts_type_of (Sample.array_of (Sample.reference "Api.Missing")) = "Missing[]"
  ∧ ts_type_of (Sample.array_of (Sample.reference "Api.Missing")) ≠ "Missing"
  ∧ ts_type_of (MkField (Some "array") None None
                  (Some (Sample.reference "Api.Missing")) (Some ["A"]) None)
    = String "034"%char ("A" +:+ String "034"%char "")
  ∧ ts_type_of (MkField (Some "array") None None
                  (Some (Sample.reference "Api.Missing")) (Some ["A"]) None)
    ≠ "Missing".
Proof. split_and!; try (by vm_compute); left. Qed.

Lemma missing_reference_skipped_witness :
  (∀ (rec : string → SchemaNode → gset string → option (list string * gset string))
      lines p,
     extend_with_dependency rec Sample.booking (Some "Api.Missing") lines p
     = Some (lines, p))
  ∧ (∃ decls p,
       main_declared ["Api.Appointment"] Sample.booking = Some (decls, p)
       ∧ main_for ["Api.Appointment"] Sample.booking = Some (file_of decls, p)
       ∧ "Api.Missing" ∉ p ∧ occurrences "Api.Missing" decls = 0)
  ∧ ts_type_of (Sample.array_of (Sample.reference "Api.Missing")) = "Missing[]"
  ∧ ts_type_of (Sample.reference "Api.Missing") = "Missing".
Proof.
  destruct (missing_reference_skipped Sample.booking ["Api.Appointment"]
              (Sample.array_of (Sample.reference "Api.Missing")) "Api.Missing")
    as (Hstep & Hrun & _ & Harray); [left|reflexivity|].
  destruct (missing_reference_skipped Sample.booking ["Api.Appointment"]
              (Sample.reference "Api.Missing") "Api.Missing")
    as (_ & _ & Hown & _); [left|reflexivity|].
  split_and!; [done..| |].
  - destruct (Harray eq_refl (or_introl eq_refl) eq_refl) as (_ & Hdot & _).
    apply (Hdot "Api" "Missing"); [|done].
    apply (bool_decide_unpack _). by vm_compute.
  - destruct (Hown eq_refl) as (_ & Hdot & _).
    apply (Hdot "Api" "Missing"); [|done].
    apply (bool_decide_unpack _). by vm_compute.
Defined.

(** * Further properties of the run *)

(** ** What a run marks and what it declares *)

(** X1: the names in [processed] at the end of a run, whose number [main]
    prints, are exactly the definitions of the table reached from a requested
    model that is itself a definition, by following references between
    definitions. *)
Theorem processed_is_reachable G models :
  ∃ decls p,
    main_for models G = Some (file_of decls, p)
    ∧ ∀ x, x ∈ p ↔ ∃ r, r ∈ models ∧ r ∈ dom G ∧ reaches G r x.
Proof.
  destruct (run_summary G models) as (decls & p & Hdecl & Hmain & _).
  exists decls, p. split; [done|]. by apply (run_reach G models decls p).
Qed.

(** X2: a run declares exactly the reached definitions that have
    properties, each with the block of its entry in the table; a definition
    without properties is marked but gets no block. *)
Theorem declared_iff_reached_with_properties G models :
  ∃ decls p,
    main_declared models G = Some (decls, p)
    ∧ main_for models G = Some (file_of decls, p)
    ∧ (∀ x d, (x, d) ∈ decls ↔
              G !! x = Some d ∧ properties d ≠ []
              ∧ ∃ r, r ∈ models ∧ r ∈ dom G ∧ reaches G r x)
    ∧ (∀ x d, x ∈ p → G !! x = Some d → properties d = [] → x ∉ decls.*1).
Proof.
  destruct (run_summary G models) as (decls & p & Hdecl & Hmain & _).
  exists decls, p. destruct (run_reach G models decls p Hdecl) as [Hst Hp].
  split_and!; [done..| |].
  - intros x d. split.
    + intros Hin. destruct (st_table _ _ _ _ Hst x d Hin) as [Hx Hprops].
      split_and!; [done..|]. apply Hp.
      apply (st_new _ _ _ _ Hst). apply list_elem_of_fmap. by exists (x, d).
    + intros (Hx & Hprops & Hreach). apply Hp in Hreach.
      assert (x ∈ decls.*1) as Hin.
      { eapply (st_declared _ _ _ _ Hst); eauto. set_solver. }
      apply list_elem_of_fmap in Hin as ([x' d'] & -> & Hin).
      destruct (st_table _ _ _ _ Hst _ _ Hin) as [Hx' _]. simpl in *.
      by simplify_eq.
  - intros x d Hx Hd Hempty Hin.
    apply list_elem_of_fmap in Hin as ([x' d'] & -> & Hin).
    destruct (st_table _ _ _ _ Hst _ _ Hin) as [Hx' Hprops]. simpl in *.
    by simplify_eq.
Qed.

(** ** Lists of requested models *)

(** A model already in [processed] adds nothing to the loop. *)
Lemma models_loop_marked G fuel models (lines : list string) p :
  (∀ r, r ∈ models → r ∈ dom G → r ∈ p) →
  models_loop (λ n d q, generate_interface (S fuel) n d G q) G models lines p
  = Some (lines, p).
Proof.
  revert lines. induction models as [|r rest IH]; intros lines Hin; [done|].
  simpl. destruct (G !! r) as [d|] eqn:Hr.
  - rewrite decide_True.
    + simpl. rewrite app_nil_r. apply IH. intros ???. apply Hin; [by right|done].
    + apply Hin; [left|]. apply elem_of_dom. eauto.
  - apply IH. intros ???. apply Hin; [by right|done].
Qed.

(** X3: requesting in addition, at the end of the list, models that are no
    definitions or that the models before them already reach (such as a
    model requested twice, or a dependency of an earlier one) changes
    neither the lines nor [processed]. *)
Theorem already_reached_models_add_nothing G models more :
  (∀ r, r ∈ more →
        G !! r = None ∨ ∃ m, m ∈ models ∧ m ∈ dom G ∧ reaches G m r) →
  main_for (models ++ more) G = main_for models G.
Proof.
  intros Hmore.
  destruct (run_summary G models) as (decls & p & Hdecl & Hmain & _).
  destruct (run_reach G models decls p Hdecl) as [_ Hp].
  unfold main_for in *. rewrite models_loop_app.
  destruct (models_loop (λ n d q, generate_interface (depth_bound G) n d G q)
              G models file_header ∅) as [[lines p0]|] eqn:Hloop; [|done].
  simpl in Hmain. injection Hmain as _ ->. cbn [mbind option_bind].
  unfold depth_bound. rewrite models_loop_marked; [done|].
  intros r Hr Hdom. destruct (Hmore r Hr) as [Hnone|Hreach].
  - apply elem_of_dom in Hdom as [? ?]. congruence.
  - by apply Hp.
Qed.

Lemma already_reached_models_add_nothing_witness :
  main_for (["Api.Appointment"] ++ ["Api.Client"; "Api.Appointment"; "Api.Gone"])
    Sample.booking
  = main_for ["Api.Appointment"] Sample.booking.
Proof.
  apply (already_reached_models_add_nothing Sample.booking ["Api.Appointment"]
           ["Api.Client"; "Api.Appointment"; "Api.Gone"]).
  intros r Hr.
  apply elem_of_cons in Hr as [->|Hr].
  { right. exists "Api.Appointment". split_and!; [left|by apply (bool_decide_unpack _)|].
    eapply rtc_l; [|apply rtc_refl].
    exists Sample.appointment. split_and!; [done| |by apply (bool_decide_unpack _)].
    exists ("Client", Sample.reference "Api.Client"). split; [right; left|left]. }
  apply elem_of_cons in Hr as [->|Hr].
  { right. exists "Api.Appointment". split_and!; [left|by apply (bool_decide_unpack _)|].
    apply rtc_refl. }
  apply elem_of_cons in Hr as [->|Hr]; [by left|].
  by apply elem_of_nil in Hr.
Defined.

(** X4: models added at the end of the list only add declarations at the
    end: the declarations of the longer run are those of the shorter run,
    unchanged and in the same order, followed by declarations for names that
    the shorter run had not marked; [processed] only grows. *)
Theorem more_models_append_declarations G models more :
  ∃ decls p decls' p',
    main_declared models G = Some (decls, p)
    ∧ main_declared (models ++ more) G = Some (decls ++ decls', p')
    ∧ main_for models G = Some (file_of decls, p)
    ∧ main_for (models ++ more) G = Some (file_of (decls ++ decls'), p')
    ∧ p ⊆ p'
    ∧ ∀ x, x ∈ decls'.*1 → x ∉ p.
Proof.
  destruct (run_summary G models) as (decls & p & Hdecl & Hmain & Hst & _).
  destruct (run_summary G (models ++ more))
    as (decls2 & p2 & Hdecl2 & Hmain2 & _ & _).
  pose proof Hdecl as Hdecl0. pose proof Hdecl2 as Hdecl20.
  unfold main_declared in Hdecl, Hdecl2. rewrite models_loop_app, Hdecl in Hdecl2.
  simpl in Hdecl2.
  destruct (models_loop_stretch G _ more decls p decls2 p2
              (declared_visit G (depth_bound G)) Hdecl2) as (t & -> & Hst2 & _).
  exists decls, p, t, p2. split_and!; [done..| |].
  - apply (st_mono _ _ _ _ Hst2).
  - intros x Hx. by destruct (st_new _ _ _ _ Hst2 x Hx).
Qed.

(** X5: when none of the requested models is a definition of the table
    (the list may be empty), the file is the fixed header followed by the
    fixed utility types, and [processed] is empty. *)
Theorem no_requested_model_found G models :
  (∀ r, r ∈ models → G !! r = None) →
  main_for models G = Some (file_header ++ utility_types, ∅).
Proof.
  intros Hnone. unfold main_for.
  assert (∀ (lines : list string) p,
            models_loop (λ n d q, generate_interface (depth_bound G) n d G q)
              G models lines p = Some (lines, p)) as ->; [|done].
  induction models as [|r rest IH]; intros lines p; [done|].
  simpl. rewrite (Hnone r) by left. apply IH. intros ??. apply Hnone. by right.
Qed.

Lemma no_requested_model_found_witness :
  main_for ["Api.Gone"; "Client"] Sample.booking
  = Some (file_header ++ utility_types, ∅).
Proof.
  apply (no_requested_model_found Sample.booking ["Api.Gone"; "Client"]).
  intros r Hr.
  apply elem_of_cons in Hr as [->|Hr]; [done|].
  apply elem_of_cons in Hr as [->|Hr]; [done|].
  by apply elem_of_nil in Hr.
Defined.

(** X6: the two figures of the report.  The number of names in [processed]
    is at least the number of declarations, and equal to it exactly when
    every marked definition has properties; the text has one line beginning
    a declaration for each declaration, and two more for the utility
    types. *)
Theorem report_counts G models :
  ∃ decls p,
    main_for models G = Some (file_of decls, p)
    ∧ length decls ≤ size p
    ∧ (length decls = size p ↔
       ∀ x d, x ∈ p → G !! x = Some d → properties d ≠ [])
    ∧ length (filter is_header (file_of decls)) = length decls + 2.
Proof.
  destruct (run_summary G models) as (decls & p & Hdecl & Hmain & Hst & _).
  exists decls, p. pose proof (st_nodup _ _ _ _ Hst) as Hnd.
  assert (Hsub : list_to_set decls.*1 ⊆ p).
  { intros x Hx%elem_of_list_to_set. by destruct (st_new _ _ _ _ Hst x Hx). }
  assert (Hlen : size (list_to_set decls.*1 : gset string) = length decls).
  { by rewrite size_list_to_set, length_fmap. }
  split_and!; [done| | |].
  - rewrite <-Hlen. by apply subseteq_size.
  - rewrite <-Hlen. split.
    + intros Hsize x d Hx Hd.
      assert (list_to_set decls.*1 = p) as Heq.
      { apply set_eq. intros y. split; [apply Hsub|].
        intros Hy. destruct (decide (y ∈ (list_to_set decls.*1 : gset string)));
          [done|].
        assert (size (list_to_set decls.*1 : gset string) < size p); [|lia].
        apply subset_size. set_solver. }
      rewrite <-Heq in Hx. apply elem_of_list_to_set in Hx.
      apply list_elem_of_fmap in Hx as ([x' d'] & -> & Hin).
      destruct (st_table _ _ _ _ Hst _ _ Hin) as [Hx' Hprops]. simpl in *.
      by simplify_eq.
    + intros Hall. f_equal. apply set_eq. intros y. split; [apply Hsub|].
      intros Hy. apply elem_of_list_to_set.
      assert (y ∈ dom G) as [d Hd]%elem_of_dom.
      { eapply (st_dom _ _ _ _ Hst); [done|set_solver]. }
      eapply (st_declared _ _ _ _ Hst); eauto. set_solver.
  - unfold file_of. rewrite !filter_app, !length_app, blocks_headers, length_fmap.
    by vm_compute.
Qed.

(** * Further properties of the type mapper *)

(** X7: the format never changes the type: neither the format of the
    property nor that of its items. *)
Theorem format_ignored pt pf pf' pr en kind fmt fmt' ref items' enum' desc :
  (∀ pi, swagger_type_to_typescript pt pf pr pi en
         = swagger_type_to_typescript pt pf' pr pi en)
  ∧ swagger_type_to_typescript pt pf pr
      (Some (MkField kind fmt ref items' enum' desc)) en
    = swagger_type_to_typescript pt pf pr
        (Some (MkField kind fmt' ref items' enum' desc)) en.
Proof.
  assert (Hprim : ∀ t f f', swagger_type_to_typescript t f None None None
                            = swagger_type_to_typescript t f' None None None).
  { intros. by rewrite !primitive_lookup. }
  split.
  - intros pi. unfold swagger_type_to_typescript, swagger_body.
    destruct (Str.truthy pr); [done|]. destruct en as [[|e es]|]; try done.
    all: case_bool_decide; [done|].
    all: destruct (bool_decide (pf = Some "date-time")),
           (bool_decide (pf' = Some "date-time")); simpl; try done.
    all: by case_bool_decide.
  - rewrite (swagger_type_to_typescript_unfold _ _ _ (Some (MkField _ fmt _ _ _ _))).
    rewrite (swagger_type_to_typescript_unfold _ _ _ (Some (MkField _ fmt' _ _ _ _))).
    unfold swagger_body.
    destruct (Str.truthy pr); [done|].
    assert (Harr :
      (if dict_truthy (MkField kind fmt ref items' enum' desc)
       then match Str.truthy ref with
            | Some item_ref => Str.last_segment item_ref +:+ "[]"
            | None =>
                swagger_type_to_typescript (Some (default "unknown" kind)) fmt
                  None None None +:+ "[]"
            end
       else "unknown[]")
      = (if dict_truthy (MkField kind fmt' ref items' enum' desc)
         then match Str.truthy ref with
              | Some item_ref => Str.last_segment item_ref +:+ "[]"
              | None =>
                  swagger_type_to_typescript (Some (default "unknown" kind)) fmt'
                    None None None +:+ "[]"
              end
         else "unknown[]")).
    { rewrite !primitive_lookup.
      destruct kind as [k|], fmt as [f|], fmt' as [f'|], ref as [[|c r]|],
        items' as [i|], enum' as [e|], desc as [ds|]; done. }
    cbn [fd_ref fd_type fd_format].
    destruct en as [[|e es]|]; try done; by rewrite Harr.
Qed.

(** X8: a property with no reference, no enum values and a type other than
    array gets the type [unknown] exactly when its type is missing or is
    none of integer, number, string, boolean and object. *)
Theorem unknown_iff_unrecognized pt pf :
  pt ≠ Some "array" →
  swagger_type_to_typescript pt pf None None None = "unknown"
  ↔ ∀ kind, pt = Some kind →
            kind ∉ ["integer"; "number"; "string"; "boolean"; "object"].
Proof.
  intros Harr. rewrite primitive_lookup, bool_decide_eq_false_2 by done.
  destruct pt as [k|]; simpl; [|naive_solver].
  unfold type_map. simpl.
  repeat (case_bool_decide;
          [subst k; simpl; split;
           [by intros ?|intros Hn; destruct (Hn _ eq_refl); set_solver]|]).
  simpl. split; [|done]. intros _ kind [= <-]. set_solver.
Qed.

Lemma unknown_iff_unrecognized_witness :
  swagger_type_to_typescript (Some "widget") (Some "int32") None None None = "unknown"
  ↔ ∀ kind, Some "widget" = Some kind →
            kind ∉ ["integer"; "number"; "string"; "boolean"; "object"].
Proof.
  apply (unknown_iff_unrecognized (Some "widget") (Some "int32")). done.
Defined.

(** X9: what an array is mapped to when the property has no reference and
    no enum values of its own.  Only the reference and the type of the items
    count: the last segment of the reference if there is one, else
    [unknown[]] for items of type array, else the table entry of the items'
    type; then [[]].  The items' own items and enum values play no part. *)
Theorem array_type_from_items pf pr pi en :
  Str.truthy pr = None → en = None ∨ en = Some [] →
  swagger_type_to_typescript (Some "array") pf pr pi en
  = match pi with
    | Some items =>
        match Str.truthy (fd_ref items) with
        | Some item_ref => Str.last_segment item_ref
        | None =>
            if bool_decide (fd_type items = Some "array") then "unknown[]"
            else dict_get type_map (fd_type items) "unknown"
        end
    | None => "unknown"
    end +:+ "[]".
Proof.
  intros Hpr Hen. destruct pi as [items|].
  - rewrite array_rendering_unmarked by done. apply array_rendering.
  - unfold swagger_type_to_typescript, swagger_body. rewrite Hpr.
    by destruct Hen as [->| ->].
Qed.

Lemma array_type_from_items_witness :
  swagger_type_to_typescript (Some "array") None (Some "")
    (Some (MkField (Some "integer") None None
             (Some (Sample.primitive "string")) (Some ["A"]) None)) (Some [])
  = "number[]".
Proof.
  apply (array_type_from_items None (Some "")
           (Some (MkField (Some "integer") None None
                    (Some (Sample.primitive "string")) (Some ["A"]) None))
           (Some [])).
  - reflexivity.
  - by right.
Defined.

(** * The short name of a definition *)

(** X10: the name an interface gets, and a reference is written with, never
    contains a dot; for a name without dots it is the name itself, and for a
    qualified name it is what follows the last dot. *)
Theorem last_segment_after_last_dot q s :
  "."%char ∉ String.list_ascii_of_string s →
  Str.last_segment s = s
  ∧ Str.last_segment (q +:+ "." +:+ s) = s
  ∧ ∀ name, "."%char ∉ String.list_ascii_of_string (Str.last_segment name).
Proof.
  intros Hs. unfold Str.last_segment. split_and!.
  - by rewrite split_no_sep.
  - induction q as [|c q IH]; simpl.
    + by rewrite split_no_sep.
    + assert ("."%char ∈ String.list_ascii_of_string (q +:+ "." +:+ s)) as Hdot.
      { rewrite chars_append. simpl. set_solver. }
      destruct (split_with_sep _ _ Hdot) as (w & w' & ws & Hsplit).
      rewrite Hsplit in *. by case_decide.
  - intros name. eapply split_segments, last_elem_of, split_nonempty.
Qed.

Lemma last_segment_after_last_dot_witness :
  Str.last_segment "Client" = "Client"
  ∧ Str.last_segment ("Mindbody.PublicApi.Dto.Models.V6" +:+ "." +:+ "Client")
    = "Client"
  ∧ ∀ name, "."%char ∉ String.list_ascii_of_string (Str.last_segment name).
Proof.
  apply (last_segment_after_last_dot "Mindbody.PublicApi.Dto.Models.V6" "Client").
  apply (bool_decide_unpack _). by vm_compute.
Defined.

(** * Further properties of a declaration *)

Lemma bind_ext_in {A B} (f g : A → list B) (l : list A) :
  (∀ x, x ∈ l → f x = g x) → l ≫= f = l ≫= g.
Proof.
  induction l as [|x l IH]; intros Hfg; [done|].
  rewrite !bind_cons, Hfg, IH; [done| |left]. intros ??. apply Hfg. by right.
Qed.

(** X11: of the list of required fields only this counts: which names of
    properties are in it.  Two lists that agree on the names of the
    properties give the same block, so the order of the list, repetitions in
    it, and names in it that are no property have no effect. *)
Theorem required_only_through_membership short node required' :
  (∀ x, x ∈ (properties node).*1 → x ∈ required' ↔ x ∈ required node) →
  interface_block short (MkNode (properties node) required' (description node))
  = interface_block short node.
Proof.
  intros Hreq. unfold interface_block. simpl. do 2 f_equal. f_equal.
  apply bind_ext_in. intros [name d] Hin.
  rewrite sorted_items_Permutation in Hin. unfold field_lines, optional_marker.
  rewrite (bool_decide_ext (name ∈ required') (name ∈ required node)); [done|].
  apply Hreq, list_elem_of_fmap. by exists (name, d).
Qed.

Lemma required_only_through_membership_witness :
  interface_block "Client"
    (MkNode (properties Sample.client) ["Gone"; "Id"; "Id"]
       (description Sample.client))
  = interface_block "Client" Sample.client.
Proof.
  apply (required_only_through_membership "Client" Sample.client
           ["Gone"; "Id"; "Id"]).
  intros x Hx.
  apply elem_of_cons in Hx as [->|Hx]; [by split; intros ?%(bool_decide_pack _)|].
  apply elem_of_cons in Hx as [->|Hx]; [|by apply elem_of_nil in Hx].
  split; intros _; by apply (bool_decide_unpack _).
Defined.

(** X12: the lines of one field.  Without a description (absent or empty)
    there is the field line alone.  With a description of characters below
    code 128 there is a comment line before the field line, holding the
    description with no line feed left in it and no blank at its beginning
    or end. *)
Theorem field_comment_clean required_fields name d :
  (default "" (fd_description d) = "" →
   field_lines required_fields (name, d)
   = ["  " +:+ name
        +:+ (if bool_decide (name ∈ required_fields) then "" else "?")
        +:+ ": " +:+ ts_type_of d +:+ ";"])
  ∧ (default "" (fd_description d) ≠ "" →
     Forall (λ c, nat_of_ascii c < 128)
       (String.list_ascii_of_string (default "" (fd_description d))) →
     ∃ comment,
       field_lines required_fields (name, d)
       = ["  /** " +:+ comment +:+ " */";
          "  " +:+ name
            +:+ (if bool_decide (name ∈ required_fields) then "" else "?")
            +:+ ": " +:+ ts_type_of d +:+ ";"]
       ∧ Str.lf ∉ String.list_ascii_of_string comment
       ∧ (∀ c rest, comment = String c rest → Str.is_space c = false)
       ∧ (∀ c, last (String.list_ascii_of_string comment) = Some c →
               Str.is_space c = false)).
Proof.
  unfold field_lines. split.
  - intros ->. by rewrite bool_decide_eq_false_2 by (by intros ?).
  - intros Hdesc _. rewrite bool_decide_eq_true_2 by done.
    eexists. split; [done|]. apply clean_desc_normalized.
Qed.

Lemma field_comment_clean_witness :
  field_lines ["Id"] ("Id", Sample.primitive "integer") = ["  Id: number;"]
  ∧ ∃ comment,
      field_lines ["Id"]
        ("Id", MkField (Some "integer") None None None None (Some Sample.two_lines))
      = ["  /** " +:+ comment +:+ " */"; "  Id: number;"]
      ∧ Str.lf ∉ String.list_ascii_of_string comment
      ∧ (∀ c rest, comment = String c rest → Str.is_space c = false)
      ∧ (∀ c, last (String.list_ascii_of_string comment) = Some c →
              Str.is_space c = false).
Proof.
  split.
  - destruct (field_comment_clean ["Id"] "Id" (Sample.primitive "integer"))
      as [Hnone _].
    by apply Hnone.
  - destruct (field_comment_clean ["Id"] "Id"
                (MkField (Some "integer") None None None None
                   (Some Sample.two_lines))) as [_ Hsome].
    apply Hsome; [done|].
    apply (bool_decide_unpack _). by vm_compute.
Defined.

Lemma all_space_replace_lf s :
  Forall (λ c, Str.is_space c = true) (String.list_ascii_of_string s) →
  Forall (λ c, Str.is_space c = true) (String.list_ascii_of_string (Str.replace_lf s)).
Proof.
  induction s as [|c s IH]; simpl; [done|].
  intros [Hc Hs]%Forall_cons. apply Forall_cons. split; [|by auto].
  by case_decide.
Qed.

Lemma all_space_replace_crlf s :
  (Forall (λ c, Str.is_space c = true) (String.list_ascii_of_string s) →
   Forall (λ c, Str.is_space c = true)
     (String.list_ascii_of_string (Str.replace_crlf s)))
  ∧ ∀ c, Str.is_space c = true →
         Forall (λ c, Str.is_space c = true) (String.list_ascii_of_string s) →
         Forall (λ c, Str.is_space c = true)
           (String.list_ascii_of_string (Str.replace_crlf (String c s))).
Proof.
  induction s as [|c' s [IH1 IH2]].
  { split; [done|]. intros c Hc _. simpl. by apply Forall_cons. }
  assert (∀ c, Str.is_space c = true →
            Forall (λ c, Str.is_space c = true)
              (String.list_ascii_of_string (String c' s)) →
            Forall (λ c, Str.is_space c = true)
              (String.list_ascii_of_string (Str.replace_crlf (String c (String c' s)))))
    as Hstep.
  { intros c Hc [Hc' Hs]%Forall_cons.
    change (Str.replace_crlf (String c (String c' s)))
      with (if decide (c = Str.cr ∧ c' = Str.lf)
            then String " "%char (Str.replace_crlf s)
            else String c (Str.replace_crlf (String c' s))).
    case_decide; simpl; apply Forall_cons; split; [done|by apply IH1|done|].
    by apply IH2. }
  split; [|done].
  intros [Hc' Hs]%Forall_cons. by apply IH2.
Qed.

Lemma lstrip_all_space s :
  Forall (λ c, Str.is_space c = true) (String.list_ascii_of_string s) →
  Str.lstrip s = "".
Proof.
  induction s as [|c s IH]; simpl; [done|].
  intros [-> Hs]%Forall_cons. by apply IH.
Qed.

(** X13: the test for a description comes before the cleaning: a
    description that is not empty but holds only blanks (spaces, tabs, line
    breaks) still gets its comment line, and the comment is empty. *)
Theorem blank_description_gives_empty_comment required_fields name d desc :
  fd_description d = Some desc → desc ≠ "" →
  Forall (λ c, Str.is_space c = true) (String.list_ascii_of_string desc) →
  ∃ line, field_lines required_fields (name, d) = ["  /**  */"; line].
Proof.
  intros Hd Hne Hblank. unfold field_lines. rewrite Hd. simpl.
  rewrite bool_decide_eq_true_2 by done.
  assert (clean_desc desc = "") as ->; [|by eexists].
  unfold clean_desc, Str.strip. rewrite lstrip_all_space; [done|].
  by apply all_space_replace_lf, all_space_replace_crlf.
Qed.

Lemma blank_description_gives_empty_comment_witness :
  ∃ line,
    field_lines ["Id"]
      ("Id", MkField (Some "integer") None None None None
               (Some (String Str.lf "  ")))
    = ["  /**  */"; line].
Proof.
  apply (blank_description_gives_empty_comment ["Id"] "Id"
           (MkField (Some "integer") None None None None (Some (String Str.lf "  ")))
           (String Str.lf "  ")).
  - reflexivity.
  - done.
  - repeat constructor.
Defined.

(** X14: the number of lines of a block: three for the comment when the
    definition has a description, the header, one line for each property
    and one more for each property with a description, and the two closing
    lines. *)
Theorem block_length short node :
  length (interface_block short node)
  = (if bool_decide (default "" (description node) ≠ "") then 3 else 0)
    + 1 + length (properties node)
    + length (filter (λ prop, default "" (fd_description prop.2) ≠ "")
                (properties node))
    + 2.
Proof.
  unfold interface_block. rewrite !length_app.
  assert (length (sorted_items (properties node)
                    ≫= field_lines (required node))
          = length (properties node)
            + length (filter (λ prop, default "" (fd_description prop.2) ≠ "")
                        (properties node))) as ->.
  { rewrite (Permutation_length
               (bind_Permutation _ _ _ (sorted_items_Permutation (properties node)))).
    induction (properties node) as [|[name d] props IH]; [done|].
    rewrite bind_cons, length_app, IH, filter_cons. unfold field_lines. simpl.
    rewrite length_app. case_bool_decide; case_decide; simpl; try done; lia. }
  case_bool_decide; simpl; lia.
Qed.

(** * Names and calls *)

Lemma filter_eq_length_pos {A} `{EqDecision A} (h : A) (l : list A) :
  h ∈ l → 1 ≤ length (filter (λ y, y = h) l).
Proof.
  intros Hin. assert (h ∈ filter (λ y, y = h) l) as Hf.
  { by apply list_elem_of_filter. }
  destruct (filter (λ y, y = h) l); [by apply elem_of_nil in Hf|simpl; lia].
Qed.

Lemma header_in_block decl : header_of decl ∈ block_of decl.
Proof.
  unfold block_of, interface_block, header_of. rewrite !elem_of_app.
  right; left. left.
Qed.

(** Two requested definitions with properties whose names end in the same
    segment: both are declared, and their common header is in the file at
    least twice. *)
Lemma same_short_name_headers G models n1 n2 d1 d2 :
  n1 ≠ n2 → Str.last_segment n1 = Str.last_segment n2 →
  n1 ∈ models → n2 ∈ models →
  G !! n1 = Some d1 → G !! n2 = Some d2 →
  properties d1 ≠ [] → properties d2 ≠ [] →
  ∃ decls p,
    main_for models G = Some (file_of decls, p)
    ∧ (n1, d1) ∈ decls ∧ (n2, d2) ∈ decls
    ∧ header_of (n1, d1) = header_of (n2, d2)
    ∧ 2 ≤ length (filter (λ line, line = header_of (n1, d1)) (file_of decls)).
Proof.
  intros Hne Hseg Hm1 Hm2 H1 H2 Hp1 Hp2.
  destruct (run_summary G models) as (decls & p & Hdecl & Hmain & Hst & Hroots).
  exists decls, p.
  assert (Hin : ∀ n d, n ∈ models → G !! n = Some d → properties d ≠ [] →
                       (n, d) ∈ decls).
  { intros n d Hm Hn Hp.
    assert (n ∈ decls.*1) as Hnd.
    { eapply (st_declared _ _ _ _ Hst); eauto; [|set_solver].
      apply Hroots; [done|]. apply elem_of_dom. eauto. }
    apply list_elem_of_fmap in Hnd as ([n' d'] & -> & Hnd).
    destruct (st_table _ _ _ _ Hst _ _ Hnd) as [Hn' _]. simpl in *.
    by simplify_eq. }
  pose proof (Hin n1 d1 Hm1 H1 Hp1) as Hd1.
  pose proof (Hin n2 d2 Hm2 H2 Hp2) as Hd2.
  assert (Hhead : header_of (n1, d1) = header_of (n2, d2)).
  { unfold header_of. simpl. by rewrite Hseg. }
  split_and!; [done..|].
  unfold file_of. rewrite !filter_app, !length_app.
  assert (2 ≤ length (filter (λ line, line = header_of (n1, d1))
                        (decls ≫= block_of))); [|lia].
  apply list_elem_of_split in Hd1 as (l1 & l2 & ->).
  assert ((n2, d2) ∈ l1 ++ l2) as Hd2'.
  { apply elem_of_app in Hd2 as [?|Hd2]; [set_solver|].
    apply elem_of_cons in Hd2 as [?|?]; [by simplify_eq|set_solver]. }
  rewrite bind_app, bind_cons, !filter_app, !length_app.
  pose proof (filter_eq_length_pos (header_of (n1, d1)) (block_of (n1, d1))
                (header_in_block _)).
  apply elem_of_app in Hd2' as [Hd2'|Hd2'].
  - assert (header_of (n1, d1) ∈ l1 ≫= block_of) as Hh.
    { apply list_elem_of_bind. exists (n2, d2). split; [|done].
      rewrite Hhead. apply header_in_block. }
    apply filter_eq_length_pos in Hh. lia.
  - assert (header_of (n1, d1) ∈ l2 ≫= block_of) as Hh.
    { apply list_elem_of_bind. exists (n2, d2). split; [|done].
      rewrite Hhead. apply header_in_block. }
    apply filter_eq_length_pos in Hh. lia.
Qed.

(** X15: declarations are told apart by their full names only.  Two
    requested definitions with properties whose names differ but end in the
    same segment are both declared, under the same header: the file holds
    that header line at least twice. *)
Theorem same_short_name_declared_twice G models n1 n2 d1 d2 :
  n1 ≠ n2 → Str.last_segment n1 = Str.last_segment n2 →
  n1 ∈ models → n2 ∈ models →
  G !! n1 = Some d1 → G !! n2 = Some d2 →
  properties d1 ≠ [] → properties d2 ≠ [] →
  ∃ decls p,
    main_for models G = Some (file_of decls, p)
    ∧ (n1, d1) ∈ decls ∧ (n2, d2) ∈ decls
    ∧ header_of (n1, d1) = header_of (n2, d2)
    ∧ 2 ≤ length (filter (λ line, line = header_of (n1, d1)) (file_of decls)).
Proof. apply same_short_name_headers. Qed.

Lemma same_short_name_declared_twice_witness :
  ∃ decls p,
    main_for ["Old.Item"; "New.Item"]
      (<["Old.Item" := Sample.client]> (<["New.Item" := Sample.appointment]> ∅))
    = Some (file_of decls, p)
    ∧ ("Old.Item", Sample.client) ∈ decls
    ∧ ("New.Item", Sample.appointment) ∈ decls
    ∧ header_of ("Old.Item", Sample.client)
      = header_of ("New.Item", Sample.appointment)
    ∧ 2 ≤ length (filter (λ line, line = header_of ("Old.Item", Sample.client))
                    (file_of decls)).
Proof.
  apply (same_short_name_declared_twice
           (<["Old.Item" := Sample.client]> (<["New.Item" := Sample.appointment]> ∅))
           ["Old.Item"; "New.Item"] "Old.Item" "New.Item"
           Sample.client Sample.appointment); try done.
  - left.
  - right; left.
Defined.

(** X16: what one call of [generate_interface] for a definition of the
    table does to [processed].  With fuel at least [depth_bound] the call
    returns; the set only grows, by definitions of the table, and holds the
    name afterwards; so the same call made again returns no lines and leaves
    the set as it is.  A call for a name already in the set returns no lines
    and leaves the set as it is. *)
Theorem call_marks_its_model G fuel n d p :
  G !! n = Some d → depth_bound G ≤ fuel →
  ∃ lines p',
    generate_interface fuel n d G p = Some (lines, p')
    ∧ p ⊆ p' ∧ n ∈ p' ∧ p' ⊆ p ∪ dom G
    ∧ generate_interface fuel n d G p' = Some ([], p')
    ∧ (n ∈ p → lines = [] ∧ p' = p).
Proof.
  intros Hn Hfuel.
  destruct (generate_interface_total G n d p Hn) as [[lines p'] Hrun0].
  pose proof (generate_interface_more_fuel G _ fuel n d p _ Hfuel Hrun0) as Hrun.
  exists lines, p'. split; [done|]. pose proof Hrun as Hrun'.
  rewrite generate_interface_declared in Hrun'.
  destruct (declared fuel n d G p) as [[t p0]|] eqn:Hd; [|done].
  injection Hrun' as _ ->.
  destruct (declared_visit G fuel n d p t p' Hn Hd) as (Hst & Hin & _).
  destruct fuel as [|fuel]; [done|].
  split_and!.
  - apply (st_mono _ _ _ _ Hst).
  - done.
  - intros x Hx. destruct (decide (x ∈ p)); [set_solver|].
    apply elem_of_union. right. by eapply (st_dom _ _ _ _ Hst).
  - simpl. by rewrite decide_True.
  - intros Hp. simpl in Hrun. rewrite decide_True in Hrun by done.
    by simplify_eq.
Qed.

Lemma call_marks_its_model_witness :
  ∃ lines p',
    generate_interface 3 "Api.Appointment" Sample.appointment Sample.booking ∅
    = Some (lines, p')
    ∧ ∅ ⊆ p' ∧ "Api.Appointment" ∈ p' ∧ p' ⊆ ∅ ∪ dom Sample.booking
    ∧ generate_interface 3 "Api.Appointment" Sample.appointment Sample.booking p'
      = Some ([], p')
    ∧ ("Api.Appointment" ∈ (∅ : gset string) → lines = [] ∧ p' = ∅).
Proof.
  apply (call_marks_its_model Sample.booking 3 "Api.Appointment"
           Sample.appointment ∅).
  - reflexivity.
  - by vm_compute.
Defined.

(** X17: the list of models in [main] names two definitions that end in
    [Appointment].  On a table that defines both with properties, the file
    of [main] has the line [export interface Appointment {] at least
    twice. *)
Theorem main_declares_appointment_twice G d1 d2 :
  G !! "Mindbody.PublicApi.Dto.Models.V6.Appointment" = Some d1 →
  G !! "Mindbody.PublicApi.Common.Models.Appointment" = Some d2 →
  properties d1 ≠ [] → properties d2 ≠ [] →
  ∃ lines p,
    main G = Some (lines, p)
    ∧ 2 ≤ length (filter (λ line, line = "export interface Appointment {") lines).
Proof.
  intros H1 H2 Hp1 Hp2.
  destruct (same_short_name_headers G models_to_generate
              "Mindbody.PublicApi.Dto.Models.V6.Appointment"
              "Mindbody.PublicApi.Common.Models.Appointment" d1 d2)
    as (decls & p & Hmain & _ & _ & _ & Hlen); try done.
  - left.
  - right; left.
  - by exists (file_of decls), p.
Qed.

Lemma main_declares_appointment_twice_witness :
  ∃ lines p,
    main (<["Mindbody.PublicApi.Dto.Models.V6.Appointment" := Sample.appointment]>
            (<["Mindbody.PublicApi.Common.Models.Appointment" := Sample.client]> ∅))
    = Some (lines, p)
    ∧ 2 ≤ length (filter (λ line, line = "export interface Appointment {") lines).
Proof.
  apply (main_declares_appointment_twice _ Sample.appointment Sample.client);
    done.
Defined.

(** X18: the references of a declared definition [D].  A referenced
    definition of the table that has properties is declared in the same run,
    before or after; one that has no properties is marked but declared
    nowhere; a name that the table does not define is neither marked nor
    declared.  In each case a property of [D] whose own reference is [E] is
    typed with the last segment of [E] (what follows its last dot, or [E]
    when it has none), and an array whose items' reference is [E], with no
    reference and no enum values of its own, with that segment followed by
    [[]]; the line of the property is in the block of [D]. *)
Theorem references_of_declared G models D dD E :
  G !! D = Some dD → references dD E →
  ∃ decls p,
    main_declared models G = Some (decls, p)
    ∧ main_for models G = Some (file_of decls, p)
    ∧ (D ∈ decls.*1 →
       (∀ dE, G !! E = Some dE → properties dE ≠ [] → (E, dE) ∈ decls)
       ∧ (∀ dE, G !! E = Some dE → properties dE = [] → E ∈ p ∧ E ∉ decls.*1)
       ∧ (G !! E = None → E ∉ p ∧ E ∉ decls.*1))
    ∧ (∀ name d, (name, d) ∈ properties dD →
         "  " +:+ name
           +:+ (if bool_decide (name ∈ required dD) then "" else "?")
           +:+ ": " +:+ ts_type_of d +:+ ";" ∈ block_of (D, dD)
         ∧ (Str.truthy (fd_ref d) = Some E →
            (∀ q s, "."%char ∉ String.list_ascii_of_string s →
                    E = q +:+ "." +:+ s → ts_type_of d = s)
            ∧ ("."%char ∉ String.list_ascii_of_string E → ts_type_of d = E))
         ∧ (Str.truthy (fd_ref d) = None →
            fd_enum d = None ∨ fd_enum d = Some [] →
            Str.truthy (item_ref d) = Some E →
            (∀ q s, "."%char ∉ String.list_ascii_of_string s →
                    E = q +:+ "." +:+ s → ts_type_of d = s +:+ "[]")
            ∧ ("."%char ∉ String.list_ascii_of_string E →
               ts_type_of d = E +:+ "[]"))).
Proof.
  intros HD Href.
  destruct (run_summary G models) as (decls & p & Hdecl & Hmain & Hst & _).
  exists decls, p. split_and!; [done..| |].
  - intros Hin.
    destruct (st_new _ _ _ _ Hst D Hin) as [HDp _].
    assert (Hlook : ∀ x, x ∈ decls.*1 → ∃ d, (x, d) ∈ decls ∧ G !! x = Some d
                                             ∧ properties d ≠ []).
    { intros x Hx. apply list_elem_of_fmap in Hx as ([x' d'] & -> & Hx).
      destruct (st_table _ _ _ _ Hst _ _ Hx). eauto. }
    assert (Hmark : ∀ dE, G !! E = Some dE → E ∈ p).
    { intros dE HE. eapply (st_closed _ _ _ _ Hst D E); [done|set_solver|].
      exists dD. split_and!; [done..|]. apply elem_of_dom. eauto. }
    split_and!.
    + intros dE HE Hprops.
      assert (E ∈ decls.*1) as HEd.
      { eapply (st_declared _ _ _ _ Hst); eauto. set_solver. }
      destruct (Hlook E HEd) as (d & ? & ? & ?). by simplify_eq.
    + intros dE HE Hprops. split; [by eauto|].
      intros HEd. destruct (Hlook E HEd) as (d & ? & ? & ?). by simplify_eq.
    + intros HE.
      assert (E ∉ p) as HEp.
      { intros HEp. apply (st_dom _ _ _ _ Hst) in HEp; [|set_solver].
        apply elem_of_dom in HEp as [? ?]. congruence. }
      split; [done|]. intros HEd. by destruct (st_new _ _ _ _ Hst E HEd).
  - intros name d Hprop. destruct (last_segment_dotted E) as [Hq Hs].
    split_and!.
    + apply (field_line_in_block _ dD (name, d)); [done|].
      unfold field_lines, optional_marker. apply elem_of_app. right. left.
    + intros Hown.
      assert (ts_type_of d = Str.last_segment E) as ->.
      { unfold ts_type_of, swagger_type_to_typescript, swagger_body.
        by rewrite Hown. }
      split; [|done]. intros q s ??. by apply (Hq q s).
    + intros Hnone Henum (Harr & items & Hitems & Hitem)%item_ref_inv.
      assert (ts_type_of d = Str.last_segment E +:+ "[]") as ->.
      { unfold ts_type_of. rewrite Harr, Hitems.
        rewrite array_rendering_unmarked, array_rendering by done.
        by rewrite Hitem. }
      split; [|by intros ->%Hs]. intros q s ? Heq. by rewrite (Hq q s).
Qed.

Lemma references_of_declared_witness :
  ∃ decls p,
    main_declared ["Api.Appointment"] Sample.booking = Some (decls, p)
    ∧ decls.*1 = ["Api.Client"; "Api.Appointment"]
    ∧ ("Api.Client", Sample.client) ∈ decls
    ∧ "  Client?: Client;" ∈ block_of ("Api.Appointment", Sample.appointment).
Proof.
  destruct (references_of_declared Sample.booking ["Api.Appointment"]
              "Api.Appointment" Sample.appointment "Api.Client")
    as (decls & p & Hrun & _ & Hdecl & Htype).
  { reflexivity. }
  { exists ("Client", Sample.reference "Api.Client"). split; [right; left|left]. }
  exists decls, p.
  assert (decls.*1 = ["Api.Client"; "Api.Appointment"]) as Hnames.
  { vm_compute in Hrun. by injection Hrun as <- _. }
  split_and!; [done..| |].
  - destruct Hdecl as (Hdeclared & _ & _).
    { rewrite Hnames. right; left. }
    by apply Hdeclared.
  - destruct (Htype "Client" (Sample.reference "Api.Client")) as (Hline & Hown & _).
    { right; left. }
    destruct (Hown eq_refl) as [Hdot _].
    rewrite (Hdot "Api" "Client") in Hline; [done| |done].
    apply (bool_decide_unpack _). by vm_compute.
Defined.

(** * Definitions that play no part *)

Section unrelated.
Context {A : Type} (G : gmap string SchemaNode) (k : string) (dk : SchemaNode).
Context (rec rec' : string → SchemaNode → gset string → option (list A * gset string)).
Hypothesis rec_agree : ∀ n d p, G !! n = Some d → rec' n d p = rec n d p.

Lemma extend_with_dependency_insert ref (acc : list A) p :
  Str.truthy ref ≠ Some k →
  extend_with_dependency rec' (<[k := dk]> G) ref acc p
  = extend_with_dependency rec G ref acc p.
Proof.
  intros Hk. unfold extend_with_dependency.
  destruct (Str.truthy ref) as [name|]; [|done].
  rewrite lookup_insert_ne by congruence.
  destruct (G !! name) as [d|] eqn:Hname; [|done]. by rewrite rec_agree.
Qed.

Lemma dependencies_loop_insert props (acc : list A) p :
  (∀ prop, prop ∈ props → k ∉ field_refs prop.2) →
  dependencies_loop rec' (<[k := dk]> G) props acc p
  = dependencies_loop rec G props acc p.
Proof.
  revert acc p. induction props as [|[name d] rest IH]; intros acc p Hk; [done|].
  assert (k ∉ field_refs d) as Hd by (apply (Hk (name, d)); left).
  unfold field_refs in Hd. rewrite not_elem_of_app, !elem_of_option_list in Hd.
  destruct Hd as [Hd1 Hd2].
  simpl. rewrite extend_with_dependency_insert by done.
  destruct (extend_with_dependency rec G (fd_ref d) acc p) as [[l1 p1]|]; [|done].
  simpl. rewrite extend_with_dependency_insert by done.
  destruct (extend_with_dependency rec G (item_ref d) l1 p1) as [[l2 p2]|]; [|done].
  simpl. apply IH. intros ??. apply Hk. by right.
Qed.

Lemma models_loop_insert models (acc : list A) p :
  k ∉ models →
  models_loop rec' (<[k := dk]> G) models acc p = models_loop rec G models acc p.
Proof.
  revert acc p. induction models as [|m rest IH]; intros acc p Hk; [done|].
  apply not_elem_of_cons in Hk as [Hm Hk].
  simpl. rewrite lookup_insert_ne by done.
  destruct (G !! m) as [d|] eqn:Hd; [|by apply IH].
  rewrite rec_agree by done. destruct (rec m d p) as [[l p1]|]; [|done].
  simpl. by apply IH.
Qed.
End unrelated.

Lemma generate_interface_insert G k dk fuel n d p :
  (∀ x dx, G !! x = Some dx → ¬ references dx k) →
  G !! n = Some d →
  generate_interface fuel n d (<[k := dk]> G) p = generate_interface fuel n d G p.
Proof.
  intros Hk. revert n d p. induction fuel as [|fuel IH]; intros n d p Hn; [done|].
  simpl. destruct (decide (n ∈ p)); [done|].
  destruct (properties d) as [|prop props] eqn:Hprops; [done|].
  rewrite <-Hprops. rewrite (dependencies_loop_insert G k dk _ _ IH); [done|].
  intros pr Hpr Hin. apply (Hk n d Hn). by exists pr.
Qed.

(** X19: a definition that no definition of the table references and that
    is not requested plays no part: adding it to the table changes neither
    the lines nor [processed]. *)
Theorem unrelated_definition_changes_nothing G models k dk :
  G !! k = None → k ∉ models →
  (∀ x dx, G !! x = Some dx → ¬ references dx k) →
  main_for models (<[k := dk]> G) = main_for models G.
Proof.
  intros Hfresh Hmodels Hk. unfold main_for.
  rewrite (models_loop_insert G k dk
             (λ n d p, generate_interface (depth_bound G) n d G p)); [done| |done].
  intros n d p Hn.
  rewrite generate_interface_insert by done.
  destruct (generate_interface_total G n d p Hn) as [r Hr]. rewrite Hr.
  eapply generate_interface_more_fuel; [|done].
  unfold depth_bound. rewrite map_size_insert_None by done. lia.
Qed.

Lemma unrelated_definition_changes_nothing_witness :
  main_for ["Api.Appointment"] (<["Api.Spare" := Sample.ping]> Sample.booking)
  = main_for ["Api.Appointment"] Sample.booking.
Proof.
  apply (unrelated_definition_changes_nothing Sample.booking ["Api.Appointment"]
           "Api.Spare" Sample.ping).
  - reflexivity.
  - by apply (bool_decide_unpack _).
  - intros x dx Hx (pr & Hpr & Hin).
    unfold Sample.booking in Hx.
    apply lookup_insert_Some in Hx as [[_ <-]|[_ Hx]].
    { apply elem_of_cons in Hpr as [->|Hpr]; [by apply elem_of_nil in Hin|].
      apply elem_of_cons in Hpr as [->|Hpr]; [by apply elem_of_nil in Hin|].
      by apply elem_of_nil in Hpr. }
    apply lookup_insert_Some in Hx as [[_ <-]|[_ Hx]]; [|done].
    apply elem_of_cons in Hpr as [->|Hpr]; [by apply elem_of_nil in Hin|].
    apply elem_of_cons in Hpr as [->|Hpr].
    { apply list_elem_of_singleton in Hin. done. }
    by apply elem_of_nil in Hpr.
Defined.
